(** * Pointer-subgraph validator (dg, src/analysis/PointsTo/PointerSubgraphValidator.cpp)

    A shallow embedding of [PointerSubgraphValidator] and of the free
    functions of its translation unit, followed by the properties the
    specification states about them.

    C++ objects live in a heap indexed by addresses; a [PSNode *] is an
    address, [nullptr] is address 0.  Every member access through a
    pointer is a heap read that faults on [nullptr] and on an address that
    holds no node.  The validator's [errors] member is the only thing the
    code writes. *)

From Stdlib Require Import NArith List Ascii String DecimalString Lia Permutation.
From stdpp Require Import base gmap sets list strings.

Local Open Scope N_scope.
Local Open Scope string_scope.
Local Open Scope list_scope.

(** ** Data model *)

(** Modelled from the spec: the enumeration [PSNodeType] is declared in
    PSNode.h, which is not part of the sources at hand; the kinds are the
    closed list of section 3 of the specification.  The [switch] of
    [checkOperands] names twelve of them, the thirteenth being [PHI]. *)
Inductive PSNodeType : Set :=
  | NOOP | NULL_ADDR | UNKNOWN_MEM | FUNCTION | PHI | CAST | GEP | LOAD
  | STORE | MEMCPY | FREE | INVALIDATE_OBJECT | CONSTANT.

#[global] Instance PSNodeType_eq_dec : EqDecision PSNodeType.
Proof. solve_decision. Defined.

(** A [const PSNode *]. *)
Abbreviation ptr := N (only parsing).

Definition nullptr : ptr := 0.

(** The fields of a [PSNode] the validator reads through [getID],
    [getType], [getOperands], [getPredecessors] and [getSuccessors]. *)
Record PSNode : Type := mkPSNode {
  id : N;
  type : PSNodeType;
  operands : list ptr;
  predecessors : list ptr;
  successors : list ptr
}.

(** The [PointerSubgraph] behind the validator's [PS] member: what
    [getRoot] and [getNodes] give. *)
Record PointerSubgraph : Type := mkPointerSubgraph {
  root : ptr;
  nodes : list ptr
}.

(** The program state a validator call sees: the heap of nodes, the
    subgraph object and the validator's [errors] string. *)
Record state : Type := mkState {
  mem : gmap N PSNode;
  PS : PointerSubgraph;
  errors : string
}.

Definition set_errors (s : state) (e : string) : state :=
  {| mem := mem s; PS := PS s; errors := e |}.

(** What the translation unit uses and does not define: the three
    sentinel node pointers and the printer of node kinds. *)
Class Externals : Type := {
  NULLPTR : ptr;
  UNKNOWN_MEMORY : ptr;
  INVALIDATED : ptr;
  PSNodeTypeToCString : PSNodeType -> string
}.

(** ** The monad of the embedding *)

(** [Fault] is a read through [nullptr] or through an address without a
    node (undefined behaviour in C++); [OutOfFuel] is the exhaustion of the
    bound put on the one [while] loop. *)
Inductive result (A : Type) : Type :=
  | Ok (a : A)
  | Fault
  | OutOfFuel.
Arguments Ok {A} a.
Arguments Fault {A}.
Arguments OutOfFuel {A}.

Definition M (A : Type) : Type := state -> result (A * state).

Definition ret {A} (a : A) : M A := fun s => Ok (a, s).

Definition bind {A B} (m : M A) (f : A -> M B) : M B :=
  fun s =>
    match m s with
    | Ok (a, s') => f a s'
    | Fault => Fault
    | OutOfFuel => OutOfFuel
    end.

Definition fault {A} : M A := fun _ => Fault.
Definition out_of_fuel {A} : M A := fun _ => OutOfFuel.

Declare Scope validator_scope.
Delimit Scope validator_scope with validator.
Notation "'let*' x := m 'in' k" := (bind m (fun x => k))
  (at level 10, x pattern, m at level 200, k at level 200) : validator_scope.
Notation "m ;; k" := (bind m (fun _ => k))
  (at level 100, k at level 200, right associativity) : validator_scope.
Local Open Scope validator_scope.

(** A range-[for] whose body updates local variables [b]. *)
Fixpoint foldM {A B} (body : B -> A -> M B) (l : list A) (b : B) : M B :=
  match l with
  | [] => ret b
  | x :: l' => let* b' := body b x in foldM body l' b'
  end.

(** [*p]: the node at address [p]. *)
Definition deref (p : ptr) : M PSNode :=
  fun s =>
    if N.eqb p nullptr then Fault
    else match mem s !! p with
         | Some n => Ok (n, s)
         | None => Fault
         end.

(** [errors += t]. *)
Definition append (t : string) : M unit :=
  fun s => Ok (tt, set_errors s (errors s +:+ t)).

Definition getRoot : M ptr := fun s => Ok (root (PS s), s).
Definition getNodes : M (list ptr) := fun s => Ok (nodes (PS s), s).

Definition getType (nd : ptr) : M PSNodeType := let* n := deref nd in ret (type n).
Definition getID (nd : ptr) : M N := let* n := deref nd in ret (id n).
Definition getOperands (nd : ptr) : M (list ptr) := let* n := deref nd in ret (operands n).
Definition getOperandsNum (nd : ptr) : M nat := let* n := deref nd in ret (length (operands n)).
Definition getOperand (nd : ptr) (i : nat) : M ptr :=
  let* n := deref nd in
  match operands n !! i with
  | Some op => ret op
  | None => fault
  end.
Definition getPredecessors (nd : ptr) : M (list ptr) := let* n := deref nd in ret (predecessors n).
Definition getSuccessors (nd : ptr) : M (list ptr) := let* n := deref nd in ret (successors n).
Definition predecessorsNum (nd : ptr) : M nat :=
  let* n := deref nd in ret (length (predecessors n)).

(** [std::to_string] on an unsigned id. *)
Definition to_string (n : N) : string := NilEmpty.string_of_uint (N.to_uint n).

Definition nl : string := String "010"%char EmptyString.

(** ** The validator *)

Section Validator.
Context `{Externals}.

Definition dumpNode (nd : ptr) : M unit :=
  let* ty := getType nd in
  let* i := getID nd in
  append (PSNodeTypeToCString ty +:+ " with ID " +:+ to_string i +:+ nl
          +:+ "  - operands: [") ;;
  let* e := getOperandsNum nd in
  foldM (fun (_ : unit) (i : nat) =>
           let* op := getOperand nd i in
           let* opid := getID op in
           append (to_string opid +:+ " ") ;;
           let* opty := getType op in
           append (PSNodeTypeToCString opty) ;;
           if negb (Nat.eqb i (e - 1)) then append ", " else ret tt)
        (seq 0 e) tt ;;
  append ("]" +:+ nl).

(** [if (!user_err.empty()) errors += "(" + user_err + ")\n";] *)
Definition append_user_err (user_err : string) : M unit :=
  match user_err with
  | EmptyString => ret tt
  | _ => append ("(" +:+ user_err +:+ ")" +:+ nl)
  end.

Definition reportInvalOperands (nd : ptr) (user_err : string) : M bool :=
  append ("Invalid operands:" +:+ nl) ;;
  dumpNode nd ;;
  append_user_err user_err ;;
  ret true.

Definition reportInvalEdges (nd : ptr) (user_err : string) : M bool :=
  append ("Invalid number of edges:" +:+ nl) ;;
  dumpNode nd ;;
  append_user_err user_err ;;
  ret true.

Definition reportInvalNode (nd : ptr) (user_err : string) : M bool :=
  append ("Invalid node:" +:+ nl) ;;
  dumpNode nd ;;
  append_user_err user_err ;;
  ret true.

Definition reportUnreachableNode (nd : ptr) : M bool :=
  append ("Unreachable node:" +:+ nl) ;;
  dumpNode nd ;;
  ret true.

(** The loop of [hasDuplicateOperand]; [ops] is the local [std::set]. *)
Fixpoint hasDuplicateOperand_loop (ops : gset N) (l : list ptr) : bool :=
  match l with
  | [] => false
  | op :: l' =>
      if bool_decide (op ∈ ops) then true
      else hasDuplicateOperand_loop ({[op]} ∪ ops) l'
  end.

Definition hasDuplicateOperand (nd : ptr) : M bool :=
  let* ops := getOperands nd in
  ret (hasDuplicateOperand_loop ∅ ops).

Definition msg_multiple : string := "Node multiple times in the graph".
Definition msg_unknown_operand : string := "Node has unknown (maybe dangling) operand".
Definition msg_empty_phi : string := "Empty PHI".
Definition msg_phi_duplicate : string := "PHI Node contains duplicated operand".
Definition msg_no_operand : string := "Should not have an operand".
Definition msg_one_operand : string := "Should have exactly one operand".
Definition msg_two_operands : string := "Should have exactly two operands".
Definition msg_no_predecessors : string := "Non-root node has no predecessors".
Definition msg_not_predecessor : string :=
  "Node not set as a predecessor of some of its successors".

(** The body of the first loop of [checkOperands]. *)
Definition checkOperands_known (acc : bool * gset N) (nd : ptr) : M (bool * gset N) :=
  let '(invalid, known_nodes) := acc in
  if N.eqb nd nullptr then ret (invalid, known_nodes)
  else if bool_decide (nd ∈ known_nodes) then
    let* r := reportInvalNode nd msg_multiple in
    ret (invalid || r, known_nodes)
  else ret (invalid, {[nd]} ∪ known_nodes).

(** The operand loop inside the second loop of [checkOperands]. *)
Definition checkOperands_operand (known_nodes : gset N) (nd : ptr)
    (invalid : bool) (op : ptr) : M bool :=
  if negb (N.eqb op NULLPTR) && negb (N.eqb op UNKNOWN_MEMORY)
     && negb (N.eqb op INVALIDATED) && negb (bool_decide (op ∈ known_nodes))
  then let* r := reportInvalOperands nd msg_unknown_operand in ret (invalid || r)
  else ret invalid.

(** The [switch] on the node kind. *)
Definition checkOperands_arity (nd : ptr) (invalid : bool) : M bool :=
  let* ty := getType nd in
  match ty with
  | PHI =>
      let* n := getOperandsNum nd in
      if Nat.eqb n 0 then
        let* r := reportInvalOperands nd msg_empty_phi in ret (invalid || r)
      else
        let* d := hasDuplicateOperand nd in
        if d then
          let* r := reportInvalOperands nd msg_phi_duplicate in ret (invalid || r)
        else ret invalid
  | NULL_ADDR | UNKNOWN_MEM | NOOP | FUNCTION =>
      let* n := getOperandsNum nd in
      if negb (Nat.eqb n 0) then
        let* r := reportInvalOperands nd msg_no_operand in ret (invalid || r)
      else ret invalid
  | GEP | LOAD | CAST | INVALIDATE_OBJECT | CONSTANT | FREE =>
      let* n := getOperandsNum nd in
      if negb (Nat.eqb n 1) then
        let* r := reportInvalOperands nd msg_one_operand in ret (invalid || r)
      else ret invalid
  | STORE | MEMCPY =>
      let* n := getOperandsNum nd in
      if negb (Nat.eqb n 2) then
        let* r := reportInvalOperands nd msg_two_operands in ret (invalid || r)
      else ret invalid
  end.

(** The body of the second loop of [checkOperands]. *)
Definition checkOperands_node (known_nodes : gset N) (invalid : bool) (nd : ptr) : M bool :=
  if N.eqb nd nullptr then ret invalid
  else
    let* ops := getOperands nd in
    let* invalid := foldM (checkOperands_operand known_nodes nd) ops invalid in
    checkOperands_arity nd invalid.

Definition checkOperands : M bool :=
  let* nodes := getNodes in
  let* acc := foldM checkOperands_known nodes (false, ∅) in
  let '(invalid, known_nodes) := acc in
  foldM (checkOperands_node known_nodes) nodes invalid.

Definition isInPredecessors (nd of_ : ptr) : M bool :=
  let* preds := getPredecessors of_ in
  ret (existsb (N.eqb nd) preds).

Definition canBeOutsideGraph (nd : ptr) : M bool :=
  let* ty := getType nd in
  ret (bool_decide (ty = FUNCTION) || bool_decide (ty = CONSTANT)
       || bool_decide (ty = UNKNOWN_MEM) || bool_decide (ty = NULL_ADDR)).

(** The two nested [for] loops of one round of [reachableNodes]. *)
Definition reachableNodes_succ (acc : gset N * list ptr) (succ : ptr) : M (gset N * list ptr) :=
  let '(reachable, new_to_process) := acc in
  if bool_decide (succ ∈ reachable) then ret (reachable, new_to_process)
  else ret ({[succ]} ∪ reachable, (new_to_process ++ [succ])).

Definition reachableNodes_cur (acc : gset N * list ptr) (cur : ptr) : M (gset N * list ptr) :=
  let* succs := getSuccessors cur in
  foldM reachableNodes_succ succs acc.

(** The [while (!to_process.empty())] loop, bounded by [fuel] rounds. *)
Fixpoint reachableNodes_while (fuel : nat) (reachable : gset N) (to_process : list ptr)
    : M (gset N) :=
  match to_process with
  | [] => ret reachable
  | _ :: _ =>
      match fuel with
      | O => out_of_fuel
      | S fuel' =>
          let* acc := foldM reachableNodes_cur to_process (reachable, []) in
          let '(reachable', new_to_process) := acc in
          reachableNodes_while fuel' reachable' new_to_process
      end
  end.

(** The bound is one more than the number of nodes in the heap;
    [reachableNodes_while_terminates] shows that it is never reached. *)
Definition reachableNodes (nd : ptr) : M (gset N) :=
  fun s => reachableNodes_while (S (size (mem s))) {[nd]} [nd] s.

(** The body of the first loop of [checkEdges]. *)
Definition checkEdges_node (invalid : bool) (nd : ptr) : M bool :=
  if N.eqb nd nullptr then ret invalid
  else
    let* np := predecessorsNum nd in
    let* r := getRoot in
    let* invalid :=
      (* [&&] evaluates [canBeOutsideGraph] only when the first two hold *)
      if Nat.eqb np 0 && negb (N.eqb nd r) then
        let* out := canBeOutsideGraph nd in
        if negb out then
          let* b := reportInvalEdges nd msg_no_predecessors in ret (invalid || b)
        else ret invalid
      else ret invalid in
    let* succs := getSuccessors nd in
    foldM (fun invalid succ =>
             let* p := isInPredecessors nd succ in
             if negb p then
               let* b := reportInvalEdges nd msg_not_predecessor in ret (invalid || b)
             else ret invalid)
          succs invalid.

(** The body of the second loop of [checkEdges]. *)
Definition checkEdges_reachable (reachable : gset N) (invalid : bool) (nd : ptr) : M bool :=
  if N.eqb nd nullptr then ret invalid
  else if negb (bool_decide (nd ∈ reachable)) then
    let* out := canBeOutsideGraph nd in
    if negb out then
      let* b := reportUnreachableNode nd in ret (invalid || b)
    else ret invalid
  else ret invalid.

Definition checkEdges : M bool :=
  let* nodes := getNodes in
  let* invalid := foldM checkEdges_node nodes false in
  let* r := getRoot in
  let* reachable := reachableNodes r in
  foldM (checkEdges_reachable reachable) nodes invalid.

Definition validate : M bool :=
  let invalid := false in
  let* a := checkOperands in
  let invalid := invalid || a in
  let* b := checkEdges in
  let invalid := invalid || b in
  ret invalid.

End Validator.

(** ** Diagnostics *)

(** One call of a report function: which one, on which node, with which
    explanation. *)
Inductive diag : Type :=
  | InvalOperands (nd : ptr) (user_err : string)
  | InvalEdges (nd : ptr) (user_err : string)
  | InvalNode (nd : ptr) (user_err : string)
  | UnreachableNode (nd : ptr).

#[global] Instance diag_eq_dec : EqDecision diag.
Proof. solve_decision. Defined.

Definition diag_node (d : diag) : ptr :=
  match d with
  | InvalOperands nd _ | InvalEdges nd _ | InvalNode nd _ | UnreachableNode nd => nd
  end.

Definition flagged (V : list diag) : bool :=
  match V with [] => false | _ :: _ => true end.

Section Diagnostics.
Context `{Externals}.

Definition report (d : diag) : M bool :=
  match d with
  | InvalOperands nd user_err => reportInvalOperands nd user_err
  | InvalEdges nd user_err => reportInvalEdges nd user_err
  | InvalNode nd user_err => reportInvalNode nd user_err
  | UnreachableNode nd => reportUnreachableNode nd
  end.

(** The text one report call appends, read off a run of the report
    function itself on an empty [errors]. *)
Definition entry_text (s : state) (d : diag) : string :=
  match report d (set_errors s EmptyString) with
  | Ok (_, s') => errors s'
  | _ => EmptyString
  end.

Fixpoint render (s : state) (V : list diag) : string :=
  match V with
  | [] => EmptyString
  | d :: V' => entry_text s d +:+ render s V'
  end.

(** [runs s m a t]: on the heap and subgraph of [s], whatever [errors]
    holds, [m] returns [a], appends [t] to [errors] and changes nothing
    else. *)
Definition runs {A} (s : state) (m : M A) (a : A) (t : string) : Prop :=
  forall e, m (set_errors s e) = Ok (a, set_errors s (e +:+ t)).

(** [emits s m a V]: [m] returns [a] and appends the entries of the report
    calls [V], in this order. *)
Definition emits {A} (s : state) (m : M A) (a : A) (V : list diag) : Prop :=
  runs s m a (render s V).

End Diagnostics.

(** ** Well-formed heaps *)

(** [p] can be dereferenced. *)
Definition allocated (m : gmap N PSNode) (p : ptr) : bool :=
  negb (N.eqb p nullptr) && bool_decide (is_Some (m !! p)).

(** Every pointer the validator may follow leads to a node: the root, the
    non-null entries of the node collection, and the operands and
    successors of every node of the heap.  Predecessor entries are only
    compared, never followed.  This is the input of section 6 of the
    specification, a constructed subgraph whose root, operands and edges
    are references to nodes; which nodes they refer to, and whether the
    invariants of section 3 hold, is left open. *)
Definition mem_safe (s : state) : bool :=
  allocated (mem s) (root (PS s))
  && forallb (fun p => N.eqb p nullptr || allocated (mem s) p) (nodes (PS s))
  && forallb (fun pn => forallb (allocated (mem s)) (operands (snd pn))
                        && forallb (allocated (mem s)) (successors (snd pn)))
             (map_to_list (mem s)).

(** ** The invariants of section 3 of the specification *)

Section Invariants.
Context `{Externals}.

(** The node set: the nodes of the collection.  A null entry is no node. *)
Definition in_node_set (s : state) (nd : ptr) : Prop :=
  nd <> nullptr /\ In nd (nodes (PS s)).

Definition is_sentinel (op : ptr) : Prop :=
  op = NULLPTR \/ op = UNKNOWN_MEMORY \/ op = INVALIDATED.

(** The arity table of section 4.2. *)
Definition arity_contract (k : PSNodeType) (ops : list ptr) : Prop :=
  match k with
  | PHI => (1 <= length ops)%nat /\ NoDup ops
  | NULL_ADDR | UNKNOWN_MEM | NOOP | FUNCTION => length ops = 0%nat
  | GEP | LOAD | CAST | INVALIDATE_OBJECT | CONSTANT | FREE => length ops = 1%nat
  | STORE | MEMCPY => length ops = 2%nat
  end.

(** The kinds allowed to exist outside the graph. *)
Definition may_exist_outside (k : PSNodeType) : Prop :=
  k = FUNCTION \/ k = CONSTANT \/ k = UNKNOWN_MEM \/ k = NULL_ADDR.

(** A path along successor edges. *)
Inductive path (m : gmap N PSNode) (a : ptr) : ptr -> Prop :=
  | path_here : path m a a
  | path_step b c n :
      path m a b -> m !! b = Some n -> In c (successors n) -> path m a c.

Definition unique_nodes (s : state) : Prop :=
  forall nd, nd <> nullptr -> (count_occ N.eq_dec (nodes (PS s)) nd <= 1)%nat.

Definition operands_known (s : state) : Prop :=
  forall nd n op, in_node_set s nd -> mem s !! nd = Some n -> In op (operands n) ->
    is_sentinel op \/ in_node_set s op.

Definition arity_respected (s : state) : Prop :=
  forall nd n, in_node_set s nd -> mem s !! nd = Some n ->
    arity_contract (type n) (operands n).

Definition edges_symmetric (s : state) : Prop :=
  forall a na b nb, in_node_set s a -> mem s !! a = Some na -> In b (successors na) ->
    mem s !! b = Some nb -> In a (predecessors nb).

Definition connected (s : state) : Prop :=
  forall nd n, in_node_set s nd -> mem s !! nd = Some n ->
    nd <> root (PS s) -> ~ may_exist_outside (type n) ->
    predecessors n <> [] /\ path (mem s) (root (PS s)) nd.

Definition valid_graph (s : state) : Prop :=
  unique_nodes s /\ operands_known s /\ arity_respected s
  /\ edges_symmetric s /\ connected s.

End Invariants.

(** Which arity explanation the table of section 4.2 calls for. *)
Definition arity_violation (k : PSNodeType) (ops : list ptr) (msg : string) : Prop :=
  match k with
  | PHI => (ops = [] /\ msg = msg_empty_phi)
           \/ (ops <> [] /\ ~ NoDup ops /\ msg = msg_phi_duplicate)
  | NULL_ADDR | UNKNOWN_MEM | NOOP | FUNCTION =>
      length ops <> 0%nat /\ msg = msg_no_operand
  | GEP | LOAD | CAST | INVALIDATE_OBJECT | CONSTANT | FREE =>
      length ops <> 1%nat /\ msg = msg_one_operand
  | STORE | MEMCPY =>
      length ops <> 2%nat /\ msg = msg_two_operands
  end.

(** ** States compared *)

Section States.
Context `{Externals}.

(** The state after the report calls [V]. *)
Definition logged (s : state) (V : list diag) : state :=
  set_errors s (errors s +:+ render s V).

End States.

(** Replace the subgraph object, keep the heap and [errors]. *)
Definition retarget (G : PointerSubgraph) (s : state) : state :=
  {| mem := mem s; PS := G; errors := errors s |}.

Definition non_null (nd : ptr) : bool := negb (N.eqb nd nullptr).

(** The same subgraph with the null entries of its collection removed. *)
Definition without_null (s : state) : state :=
  retarget {| root := root (PS s);
              nodes := List.filter non_null (nodes (PS s)) |} s.

Definition map_state {A} (phi : state -> state) (r : result (A * state))
    : result (A * state) :=
  match r with
  | Ok (a, s) => Ok (a, phi s)
  | Fault => Fault
  | OutOfFuel => OutOfFuel
  end.

(** [m] does not look at the subgraph object. *)
Definition graph_blind {A} (m : M A) : Prop :=
  forall G s, m (retarget G s) = map_state (retarget G) (m s).

(** The outcome of a run from an empty [errors], seen from a state [s]
    that differs from the initial state of that run in [errors] only. *)
Definition replay {A} (s : state) (r : result (A * state)) : result (A * state) :=
  match r with
  | Ok (a, s0) => Ok (a, set_errors s (errors s +:+ errors s0))
  | Fault => Fault
  | OutOfFuel => OutOfFuel
  end.

(** [m] reads the heap and the subgraph, writes neither, and only appends
    to [errors], a text that does not depend on what [errors] held. *)
Definition uniform {A} (m : M A) : Prop :=
  forall s, m s = replay s (m (set_errors s EmptyString)).

(** A node whose own address and operand addresses all hold nodes:
    [dumpNode] can print it. *)
Definition printable (s : state) (nd : ptr) : Prop :=
  nd <> nullptr /\
  exists n, mem s !! nd = Some n /\
            forall op, In op (operands n) -> allocated (mem s) op = true.

(** ** The report calls of the two passes, as lists

    What follows mirrors the loops of [checkOperands] and [checkEdges] as
    functions from the graph to the list of report calls; the section
    "The passes refine their lists" proves that the code makes exactly
    these calls, and the claims are then read off the lists. *)

Section Lists.
Context `{Externals}.

Fixpoint known_diags (known : gset N) (l : list ptr) : list diag :=
  match l with
  | [] => []
  | nd :: l' =>
      if N.eqb nd nullptr then known_diags known l'
      else if bool_decide (nd ∈ known) then InvalNode nd msg_multiple :: known_diags known l'
      else known_diags ({[nd]} ∪ known) l'
  end.

Fixpoint known_set (known : gset N) (l : list ptr) : gset N :=
  match l with
  | [] => known
  | nd :: l' =>
      if N.eqb nd nullptr then known_set known l'
      else if bool_decide (nd ∈ known) then known_set known l'
      else known_set ({[nd]} ∪ known) l'
  end.

Definition unknown_operand (known : gset N) (op : ptr) : bool :=
  negb (N.eqb op NULLPTR) && negb (N.eqb op UNKNOWN_MEMORY)
  && negb (N.eqb op INVALIDATED) && negb (bool_decide (op ∈ known)).

Definition operand_diags (known : gset N) (nd : ptr) (ops : list ptr) : list diag :=
  flat_map (fun op => if unknown_operand known op
                      then [InvalOperands nd msg_unknown_operand] else []) ops.

Definition arity_diags (nd : ptr) (n : PSNode) : list diag :=
  match type n with
  | PHI =>
      if Nat.eqb (length (operands n)) 0 then [InvalOperands nd msg_empty_phi]
      else if hasDuplicateOperand_loop ∅ (operands n)
           then [InvalOperands nd msg_phi_duplicate] else []
  | NULL_ADDR | UNKNOWN_MEM | NOOP | FUNCTION =>
      if negb (Nat.eqb (length (operands n)) 0) then [InvalOperands nd msg_no_operand] else []
  | GEP | LOAD | CAST | INVALIDATE_OBJECT | CONSTANT | FREE =>
      if negb (Nat.eqb (length (operands n)) 1) then [InvalOperands nd msg_one_operand] else []
  | STORE | MEMCPY =>
      if negb (Nat.eqb (length (operands n)) 2) then [InvalOperands nd msg_two_operands] else []
  end.

Definition node_diags (s : state) (known : gset N) (nd : ptr) : list diag :=
  if N.eqb nd nullptr then []
  else match mem s !! nd with
       | Some n => operand_diags known nd (operands n) ++ arity_diags nd n
       | None => []
       end.

Definition checkOperands_diags (s : state) : list diag :=
  known_diags ∅ (nodes (PS s))
  ++ flat_map (node_diags s (known_set ∅ (nodes (PS s)))) (nodes (PS s)).

Definition outside_kind (k : PSNodeType) : bool :=
  bool_decide (k = FUNCTION) || bool_decide (k = CONSTANT)
  || bool_decide (k = UNKNOWN_MEM) || bool_decide (k = NULL_ADDR).

Definition successor_diags (s : state) (nd : ptr) (succs : list ptr) : list diag :=
  flat_map (fun succ =>
              match mem s !! succ with
              | Some m => if existsb (N.eqb nd) (predecessors m) then []
                          else [InvalEdges nd msg_not_predecessor]
              | None => []
              end) succs.

Definition predecessor_diags (s : state) (nd : ptr) (n : PSNode) : list diag :=
  if Nat.eqb (length (predecessors n)) 0 && negb (N.eqb nd (root (PS s)))
     && negb (outside_kind (type n))
  then [InvalEdges nd msg_no_predecessors] else [].

Definition edge_diags (s : state) (nd : ptr) : list diag :=
  if N.eqb nd nullptr then []
  else match mem s !! nd with
       | Some n => predecessor_diags s nd n ++ successor_diags s nd (successors n)
       | None => []
       end.

Definition unreachable_diags (s : state) (reachable : gset N) (nd : ptr) : list diag :=
  if N.eqb nd nullptr then []
  else if bool_decide (nd ∈ reachable) then []
  else match mem s !! nd with
       | Some n => if outside_kind (type n) then [] else [UnreachableNode nd]
       | None => []
       end.

(** The set [reachableNodes] computes from the root. *)
Definition reachable_from_root (s : state) : gset N :=
  match reachableNodes (root (PS s)) s with
  | Ok (R, _) => R
  | _ => ∅
  end.

Definition checkEdges_diags (s : state) : list diag :=
  flat_map (edge_diags s) (nodes (PS s))
  ++ flat_map (unreachable_diags s (reachable_from_root s)) (nodes (PS s)).

Definition validate_diags (s : state) : list diag :=
  checkOperands_diags s ++ checkEdges_diags s.

End Lists.

(** ** One round of the traversal, as a function *)

Definition expand_succ (acc : gset N * list ptr) (succ : ptr) : gset N * list ptr :=
  if bool_decide (succ ∈ acc.1) then acc
  else ({[succ]} ∪ acc.1, acc.2 ++ [succ]).

Definition expand_cur (m : gmap N PSNode) (acc : gset N * list ptr) (cur : ptr)
    : gset N * list ptr :=
  match m !! cur with
  | Some n => fold_left expand_succ (successors n) acc
  | None => acc
  end.

(** [acc'] extends [acc] by the pointers satisfying [S]: they join the
    set, and those that were not in it join the list. *)
Definition grows (acc acc' : gset N * list ptr) (S : ptr -> Prop) : Prop :=
  (forall x, x ∈ acc'.1 <-> x ∈ acc.1 \/ S x) /\
  (forall x, In x acc'.2 <-> In x acc.2 \/ (x ∈ acc'.1 /\ x ∉ acc.1)).

(** The successors of the nodes of [T]. *)
Definition succs_of (m : gmap N PSNode) (T : list ptr) (x : ptr) : Prop :=
  exists y n, In y T /\ m !! y = Some n /\ In x (successors n).

(** The invariant of the [while] loop of [reachableNodes nd]: the set
    holds the start node and only nodes a path reaches, the work list is
    part of the set, and the successors of every node of the set that is
    no longer on the work list are in the set. *)
Definition bfs_inv (m : gmap N PSNode) (nd : ptr) (R : gset N) (T : list ptr) : Prop :=
  nd ∈ R /\
  (forall x, x ∈ R -> path m nd x) /\
  (forall x, In x T -> x ∈ R) /\
  (forall x n c, x ∈ R -> ~ In x T -> m !! x = Some n -> In c (successors n) -> c ∈ R).

(** What the bound of the [while] loop is measured against: the nodes of
    the heap not yet expanded. *)
Definition unexpanded (m : gmap N PSNode) (R : gset N) (T : list ptr) : nat :=
  size (dom m ∖ (R ∖ list_to_set T)).

(** ** Two concrete graphs *)

Definition ex_kind_name (k : PSNodeType) : string :=
  match k with
  | NOOP => "NOOP" | NULL_ADDR => "NULL_ADDR" | UNKNOWN_MEM => "UNKNOWN_MEM"
  | FUNCTION => "FUNCTION" | PHI => "PHI" | CAST => "CAST" | GEP => "GEP"
  | LOAD => "LOAD" | STORE => "STORE" | MEMCPY => "MEMCPY" | FREE => "FREE"
  | INVALIDATE_OBJECT => "INVALIDATE_OBJECT" | CONSTANT => "CONSTANT"
  end.

Definition ex_externals : Externals :=
  {| NULLPTR := 1; UNKNOWN_MEMORY := 2; INVALIDATED := 3;
     PSNodeTypeToCString := ex_kind_name |}.

Definition ex_sentinels : gmap N PSNode :=
  <[1 := mkPSNode 0 NULL_ADDR [] [] [] ]>
  (<[2 := mkPSNode 0 UNKNOWN_MEM [] [] [] ]>
  (<[3 := mkPSNode 0 UNKNOWN_MEM [] [] [] ]> ∅)).

(** root(NOOP) -> store(STORE) <-> load(LOAD), the operands being a
    CONSTANT and a FUNCTION node outside the control flow; the collection
    starts with a null entry. *)
Definition ex_valid : state :=
  {| mem := <[10 := mkPSNode 1 NOOP [] [] [11] ]>
           (<[11 := mkPSNode 2 STORE [13; 14] [10; 12] [12] ]>
           (<[12 := mkPSNode 3 LOAD [13] [11] [11] ]>
           (<[13 := mkPSNode 4 CONSTANT [2] [] [] ]>
           (<[14 := mkPSNode 5 FUNCTION [] [] [] ]> ex_sentinels))));
     PS := {| root := 10; nodes := [0; 10; 11; 12; 13; 14] |};
     errors := EmptyString |}.

(** A graph breaking every invariant: node 22 is registered twice, 21 has
    one operand, which is no registered node, 22 is a PHI with a repeated
    operand, the edge 20 -> 21 is not mirrored, 23 has no predecessor and
    cannot be reached. *)
Definition ex_broken : state :=
  {| mem := <[20 := mkPSNode 1 NOOP [] [] [21] ]>
           (<[21 := mkPSNode 2 STORE [25] [] [22] ]>
           (<[22 := mkPSNode 3 PHI [21; 21] [21] [21] ]>
           (<[23 := mkPSNode 4 LOAD [21] [] [] ]>
           (<[25 := mkPSNode 6 CAST [21] [] [] ]> ex_sentinels))));
     PS := {| root := 20; nodes := [0; 20; 21; 22; 23; 22; 0] |};
     errors := EmptyString |}.

(** ** The text of an entry *)

Section Texts.
Context `{Externals}.

(** What the loop of [dumpNode] prints for one operand. *)
Definition operand_text (m : gmap N PSNode) (op : ptr) : string :=
  match m !! op with
  | Some o => to_string (id o) +:+ " " +:+ PSNodeTypeToCString (type o)
  | None => EmptyString
  end.

Fixpoint comma_separated (l : list string) : string :=
  match l with
  | [] => EmptyString
  | x :: l' => match l' with
               | [] => x
               | _ :: _ => x +:+ ", " +:+ comma_separated l'
               end
  end.

Definition dump_text (m : gmap N PSNode) (n : PSNode) : string :=
  PSNodeTypeToCString (type n) +:+ " with ID " +:+ to_string (id n) +:+ nl
  +:+ "  - operands: ["
  +:+ comma_separated (map (operand_text m) (operands n)) +:+ "]" +:+ nl.

(** The body of the operand loop of [dumpNode], [e] being the operand
    count. *)
Definition dumpNode_operand (nd : ptr) (e : nat) (_ : unit) (i : nat) : M unit :=
  let* op := getOperand nd i in
  let* opid := getID op in
  append (to_string opid +:+ " ") ;;
  let* opty := getType op in
  append (PSNodeTypeToCString opty) ;;
  if negb (Nat.eqb i (e - 1)) then append ", " else ret tt.

End Texts.

Definition category (d : diag) : string :=
  match d with
  | InvalOperands _ _ => "Invalid operands:"
  | InvalEdges _ _ => "Invalid number of edges:"
  | InvalNode _ _ => "Invalid node:"
  | UnreachableNode _ => "Unreachable node:"
  end.

Definition explanation (d : diag) : string :=
  match d with
  | InvalOperands _ msg | InvalEdges _ msg | InvalNode _ msg => msg
  | UnreachableNode _ => EmptyString
  end.

Definition explanation_line (msg : string) : string :=
  match msg with
  | EmptyString => EmptyString
  | _ => "(" +:+ msg +:+ ")" +:+ nl
  end.

(** The same heap and root with another node collection. *)
Definition with_nodes (l : list ptr) (s : state) : state :=
  retarget {| root := root (PS s); nodes := l |} s.

(** ** The verdict and the text *)

Definition nonempty (t : string) : bool :=
  match t with
  | EmptyString => false
  | String _ _ => true
  end.

(** [m] leaves the state as it found it. *)
Definition quiet {A} (m : M A) : Prop :=
  forall s a s', m s = Ok (a, s') -> s' = s.

(** [m], entered with the local [invalid], only appends to [errors], and
    the [invalid] it leaves, [flag a], is the one it was entered with or-ed
    with whether it appended anything. *)
Definition tracks {A} (flag : A -> bool) (invalid : bool) (m : M A) : Prop :=
  forall s a s', m s = Ok (a, s') ->
    exists t, s' = set_errors s (errors s +:+ t) /\ flag a = invalid || nonempty t.

(** The flag of a pass, which returns its [invalid] itself. *)
Local Abbreviation itself := (fun b : bool => b) (only parsing).

(** [m] holds no loop that the embedding had to bound, or stays within
    the bound. *)
Definition fuel_free {A} (m : M A) : Prop :=
  forall s, m s <> OutOfFuel.

(** ** Two graphs with a pointer that leads nowhere *)

(** root(NOOP) <-> user(LOAD); the operand of the LOAD node is [op], which
    is neither a sentinel nor registered. *)
Definition ex_operand (op : ptr) : state :=
  {| mem := <[30 := mkPSNode 1 NOOP [] [] [31] ]>
           (<[31 := mkPSNode 2 LOAD [op] [30] [] ]> ex_sentinels);
     PS := {| root := 30; nodes := [30; 31] |};
     errors := EmptyString |}.

(** The nodes of [ex_valid], registered in a subgraph that has no root. *)
Definition ex_rootless : state :=
  retarget {| root := nullptr; nodes := nodes (PS ex_valid) |} ex_valid.

(** * Proofs *)

(** ** Strings and the monad *)

Lemma append_nil_r (t : string) : t +:+ EmptyString = t.
Proof. induction t as [|c t IH]; [reflexivity|]. exact (f_equal (String c) IH). Qed.

Lemma append_assoc (a b c : string) : (a +:+ b) +:+ c = a +:+ (b +:+ c).
Proof. induction a as [|x a IH]; [reflexivity|]. exact (f_equal (String x) IH). Qed.

Lemma append_eq_self (e t : string) : e +:+ t = e -> t = EmptyString.
Proof.
  intros Heq. rewrite <- (append_nil_r e) in Heq at 2.
  exact (String.app_inj e _ _ Heq).
Qed.

Lemma set_errors_id (s : state) : set_errors s (errors s) = s.
Proof. destruct s; reflexivity. Qed.

Section MonadLaws.
Context `{Externals}.
Context (s : state).

Lemma runs_here {A} (m : M A) a t :
  runs s m a t -> m s = Ok (a, set_errors s (errors s +:+ t)).
Proof. intros Hr. specialize (Hr (errors s)). now rewrite set_errors_id in Hr. Qed.

Lemma runs_ret {A} (a : A) : runs s (ret a) a EmptyString.
Proof. intros e. unfold ret. now rewrite append_nil_r. Qed.

Lemma runs_bind {A B} (m : M A) (f : A -> M B) a b t u :
  runs s m a t -> runs s (f a) b u -> runs s (bind m f) b (t +:+ u).
Proof.
  intros Hm Hf e. unfold bind. rewrite Hm.
  specialize (Hf (e +:+ t)). rewrite Hf. now rewrite append_assoc.
Qed.

Lemma runs_bind_silent {A B} (m : M A) (f : A -> M B) a b u :
  runs s m a EmptyString -> runs s (f a) b u -> runs s (bind m f) b u.
Proof. intros Hm Hf. exact (runs_bind m f a b EmptyString u Hm Hf). Qed.

Lemma runs_append t : runs s (append t) tt t.
Proof. intros e. reflexivity. Qed.

Lemma runs_getRoot : runs s getRoot (root (PS s)) EmptyString.
Proof. intros e. unfold getRoot. simpl. now rewrite append_nil_r. Qed.

Lemma runs_getNodes : runs s getNodes (nodes (PS s)) EmptyString.
Proof. intros e. unfold getNodes. simpl. now rewrite append_nil_r. Qed.

Lemma allocated_lookup p :
  allocated (mem s) p = true -> p <> nullptr /\ exists n, mem s !! p = Some n.
Proof.
  unfold allocated. intros [Hp Hb]%andb_prop.
  apply negb_true_iff, N.eqb_neq in Hp.
  apply bool_decide_eq_true in Hb. destruct Hb as [n Hn]. eauto.
Qed.

Lemma runs_deref p n : p <> nullptr -> mem s !! p = Some n -> runs s (deref p) n EmptyString.
Proof.
  intros Hp Hn e. unfold deref. apply N.eqb_neq in Hp. rewrite Hp. simpl.
  rewrite Hn. now rewrite append_nil_r.
Qed.

Lemma runs_field {A} (f : PSNode -> A) p n :
  p <> nullptr -> mem s !! p = Some n ->
  runs s (let* x := deref p in ret (f x)) (f n) EmptyString.
Proof.
  intros Hp Hn. eapply runs_bind_silent; [apply runs_deref; eassumption|apply runs_ret].
Qed.

End MonadLaws.

(** ** What the report functions append *)

Lemma append_nonempty (a b : string) : a <> EmptyString -> a +:+ b <> EmptyString.
Proof.
  destruct a as [|c a]; [congruence|]. intros _ Heq.
  change (String c (a +:+ b) = EmptyString) in Heq. discriminate.
Qed.

Section Reports.
Context `{Externals}.
Context (s : state).

Lemma runs_foldM_ex {A B} (body : B -> A -> M B) (l : list A) :
  (forall b x, In x l -> exists b' t, runs s (body b x) b' t) ->
  forall b, exists b' t, runs s (foldM body l b) b' t.
Proof.
  induction l as [|x l IH]; intros Hbody b; simpl.
  - exists b, EmptyString. apply runs_ret.
  - destruct (Hbody b x) as (b1 & t1 & H1); [now left|].
    destruct (IH (fun b x Hx => Hbody b x (or_intror Hx)) b1) as (b2 & t2 & H2).
    exists b2, (t1 +:+ t2). eapply runs_bind; eassumption.
Qed.

Lemma runs_dumpNode nd : printable s nd -> exists t, runs s (dumpNode nd) tt t.
Proof.
  intros (Hnd & n & Hn & Hops). unfold dumpNode.
  destruct (runs_foldM_ex
    (fun (_ : unit) (i : nat) =>
       let* op := getOperand nd i in
       let* opid := getID op in
       append (to_string opid +:+ " ") ;;
       let* opty := getType op in
       append (PSNodeTypeToCString opty) ;;
       if negb (Nat.eqb i (length (operands n) - 1)) then append ", " else ret tt)
    (seq 0 (length (operands n)))) with tt as (u & t & Hloop).
  { intros [] i Hi. apply in_seq in Hi.
    destruct (lookup_lt_is_Some_2 (operands n) i) as [op Hop]; [lia|].
    assert (Hin : In op (operands n)).
    { apply list_elem_of_In. eapply list_elem_of_lookup_2; eassumption. }
    destruct (allocated_lookup s op (Hops op Hin)) as (Hop0 & m & Hm).
    cbv beta. destruct (negb (Nat.eqb i _)); exists tt; eexists.
    all: eapply runs_bind.
    all: try (unfold getOperand; eapply runs_bind_silent;
              [apply runs_deref; eassumption|]; rewrite Hop; apply runs_ret).
    all: (eapply runs_bind; [apply (runs_field s id); eassumption|]).
    all: (eapply runs_bind; [apply runs_append|]).
    all: (eapply runs_bind; [apply (runs_field s type); eassumption|]).
    all: (eapply runs_bind; [apply runs_append|]).
    - apply runs_append.
    - apply runs_ret. }
  destruct u. eexists.
  eapply runs_bind; [apply (runs_field s type); eassumption|].
  eapply runs_bind; [apply (runs_field s id); eassumption|].
  eapply runs_bind; [apply runs_append|].
  eapply runs_bind; [apply (runs_field s (fun n => length (operands n))); eassumption|].
  eapply runs_bind; [exact Hloop|].
  apply runs_append.
Qed.

Lemma runs_append_user_err msg : exists t, runs s (append_user_err msg) tt t.
Proof.
  destruct msg; simpl; eexists; [apply runs_ret|apply runs_append].
Qed.

Lemma runs_report_ex d :
  printable s (diag_node d) ->
  exists t, t <> EmptyString /\ runs s (report d) true t.
Proof.
  intros Hp. destruct (runs_dumpNode _ Hp) as (t & Ht).
  destruct d as [nd msg|nd msg|nd msg|nd]; simpl in *;
    try (destruct (runs_append_user_err msg) as (u & Hu));
    (eexists; split;
     [|eapply runs_bind; [apply runs_append|];
       eapply runs_bind; [exact Ht|];
       first [eapply runs_bind; [exact Hu|]; apply runs_ret | apply runs_ret]]);
    apply append_nonempty; discriminate.
Qed.

Lemma runs_report d :
  printable s (diag_node d) ->
  runs s (report d) true (entry_text s d) /\ entry_text s d <> EmptyString.
Proof.
  intros Hp. destruct (runs_report_ex d Hp) as (t & Hne & Hr).
  assert (entry_text s d = t) as ->; [|now split].
  unfold entry_text. now rewrite (Hr EmptyString).
Qed.

Lemma render_app V W : render s (V ++ W) = render s V +:+ render s W.
Proof.
  induction V as [|d V IH]; simpl; [reflexivity|].
  now rewrite IH, append_assoc.
Qed.

Lemma emits_ret {A} (a : A) : emits s (ret a) a [].
Proof. apply runs_ret. Qed.

Lemma emits_bind {A B} (m : M A) (f : A -> M B) a b V W :
  emits s m a V -> emits s (f a) b W -> emits s (bind m f) b (V ++ W).
Proof. unfold emits. rewrite render_app. apply runs_bind. Qed.

Lemma emits_bind_silent {A B} (m : M A) (f : A -> M B) a b W :
  emits s m a [] -> emits s (f a) b W -> emits s (bind m f) b W.
Proof. apply (emits_bind m f a b [] W). Qed.

Lemma emits_bind_last {A B} (m : M A) (f : A -> M B) a b V :
  emits s m a V -> emits s (f a) b [] -> emits s (bind m f) b V.
Proof. intros Hm Hf. rewrite <- (app_nil_r V). now apply (emits_bind m f a b). Qed.

Lemma emits_report d : printable s (diag_node d) -> emits s (report d) true [d].
Proof.
  intros Hp. unfold emits. simpl. rewrite append_nil_r. now apply runs_report.
Qed.

Lemma emits_field {A} (f : PSNode -> A) p n :
  p <> nullptr -> mem s !! p = Some n ->
  emits s (let* x := deref p in ret (f x)) (f n) [].
Proof. apply runs_field. Qed.

Lemma render_nonempty V : V <> [] -> (forall d, In d V -> printable s (diag_node d)) ->
  render s V <> EmptyString.
Proof.
  destruct V as [|d V]; [congruence|]. intros _ Hp. simpl.
  apply append_nonempty. apply runs_report. apply Hp. now left.
Qed.

End Reports.
(** ** The report functions do not look at the subgraph object *)

Section GraphBlind.
Context `{Externals}.

Lemma graph_blind_ret {A} (a : A) : graph_blind (ret a).
Proof. intros G s. reflexivity. Qed.

Lemma graph_blind_fault {A} : graph_blind (@fault A).
Proof. intros G s. reflexivity. Qed.

Lemma graph_blind_bind {A B} (m : M A) (f : A -> M B) :
  graph_blind m -> (forall a, graph_blind (f a)) -> graph_blind (bind m f).
Proof.
  intros Hm Hf G s. unfold bind. rewrite Hm.
  destruct (m s) as [[a s']| |]; simpl; [apply Hf|reflexivity|reflexivity].
Qed.

Lemma graph_blind_append t : graph_blind (append t).
Proof. intros G s. reflexivity. Qed.

Lemma graph_blind_deref p : graph_blind (deref p).
Proof.
  intros G s. unfold deref. simpl.
  destruct (N.eqb p nullptr); [reflexivity|]. now destruct (mem s !! p).
Qed.

Lemma graph_blind_foldM {A B} (body : B -> A -> M B) (l : list A) :
  (forall b x, graph_blind (body b x)) -> forall b, graph_blind (foldM body l b).
Proof.
  intros Hbody. induction l as [|x l IH]; intros b; simpl.
  - apply graph_blind_ret.
  - apply graph_blind_bind; [apply Hbody|apply IH].
Qed.

Ltac graph_blind_tac :=
  repeat first
    [ assumption
    | apply graph_blind_ret | apply graph_blind_fault
    | apply graph_blind_append | apply graph_blind_deref
    | apply graph_blind_bind; [|intros]
    | apply graph_blind_foldM; intros
    | match goal with
      | |- graph_blind (match ?x with _ => _ end) => destruct x
      end ].

Lemma graph_blind_dumpNode nd : graph_blind (dumpNode nd).
Proof.
  unfold dumpNode, getType, getID, getOperandsNum, getOperand. graph_blind_tac.
Qed.

Lemma graph_blind_report d : graph_blind (report d).
Proof.
  pose proof graph_blind_dumpNode.
  destruct d; simpl;
    unfold reportInvalOperands, reportInvalEdges, reportInvalNode,
      reportUnreachableNode, append_user_err;
    graph_blind_tac; auto.
Qed.

Lemma entry_text_retarget G s d : entry_text (retarget G s) d = entry_text s d.
Proof.
  unfold entry_text.
  change (set_errors (retarget G s) EmptyString)
    with (retarget G (set_errors s EmptyString)).
  rewrite graph_blind_report.
  now destruct (report d (set_errors s EmptyString)) as [[a s']| |].
Qed.

Lemma render_retarget G s V : render (retarget G s) V = render s V.
Proof.
  induction V as [|d V IH]; simpl; [reflexivity|].
  now rewrite entry_text_retarget, IH.
Qed.

End GraphBlind.

(** ** The passes refine their lists: Pass A *)

Lemma flagged_app (V W : list diag) : flagged (V ++ W) = flagged V || flagged W.
Proof. now destruct V. Qed.

Section PassA.
Context `{Externals}.
Context (s : state).

Lemma mem_safe_root : mem_safe s = true -> allocated (mem s) (root (PS s)) = true.
Proof. unfold mem_safe. now intros [[? _]%andb_prop _]%andb_prop. Qed.

Lemma mem_safe_nodes nd :
  mem_safe s = true -> In nd (nodes (PS s)) -> nd <> nullptr -> allocated (mem s) nd = true.
Proof.
  unfold mem_safe. intros [[_ Hn]%andb_prop _]%andb_prop Hin Hnd.
  rewrite forallb_forall in Hn. specialize (Hn nd Hin).
  apply orb_prop in Hn as [Hz|]; [|assumption].
  apply N.eqb_eq in Hz. contradiction.
Qed.

Lemma mem_safe_operands p n op :
  mem_safe s = true -> mem s !! p = Some n -> In op (operands n) ->
  allocated (mem s) op = true.
Proof.
  unfold mem_safe. intros [_ Hm]%andb_prop Hp Hin.
  rewrite forallb_forall in Hm. specialize (Hm (p, n)).
  apply andb_prop in Hm as [Ho _].
  - rewrite forallb_forall in Ho. now apply Ho.
  - apply list_elem_of_In, elem_of_map_to_list. exact Hp.
Qed.

Lemma mem_safe_successors p n c :
  mem_safe s = true -> mem s !! p = Some n -> In c (successors n) ->
  allocated (mem s) c = true.
Proof.
  unfold mem_safe. intros [_ Hm]%andb_prop Hp Hin.
  rewrite forallb_forall in Hm. specialize (Hm (p, n)).
  apply andb_prop in Hm as [_ Ho].
  - rewrite forallb_forall in Ho. now apply Ho.
  - apply list_elem_of_In, elem_of_map_to_list. exact Hp.
Qed.

Lemma mem_safe_printable nd :
  mem_safe s = true -> In nd (nodes (PS s)) -> nd <> nullptr -> printable s nd.
Proof.
  intros Hs Hin Hnd. split; [assumption|].
  destruct (allocated_lookup s nd (mem_safe_nodes nd Hs Hin Hnd)) as (_ & n & Hn).
  exists n. split; [assumption|]. intros op. now apply (mem_safe_operands nd n).
Qed.

Lemma emits_known (l : list ptr) :
  (forall nd, In nd l -> nd <> nullptr -> printable s nd) ->
  forall invalid known,
    emits s (foldM checkOperands_known l (invalid, known))
      (invalid || flagged (known_diags known l), known_set known l)
      (known_diags known l).
Proof.
  induction l as [|nd l IH]; intros Hp invalid known; simpl.
  - rewrite orb_false_r. apply emits_ret.
  - specialize (IH (fun x Hx => Hp x (or_intror Hx))).
    destruct (N.eqb nd nullptr) eqn:Hnd.
    + eapply emits_bind_silent; [apply emits_ret|]. apply IH.
    + destruct (bool_decide (nd ∈ known)).
      * change (InvalNode nd msg_multiple :: known_diags known l)
          with ([InvalNode nd msg_multiple] ++ known_diags known l).
        eapply emits_bind.
        { eapply emits_bind_last; [|apply emits_ret].
          apply (emits_report s (InvalNode nd msg_multiple)).
          apply Hp; [now left|]. now apply N.eqb_neq. }
        specialize (IH (invalid || true) known).
        simpl. rewrite orb_true_r in *. exact IH.
      * eapply emits_bind_silent; [apply emits_ret|]. apply IH.
Qed.

Lemma emits_foldM_flag {A} (body : bool -> A -> M bool) (g : A -> list diag) (l : list A) :
  (forall invalid x, In x l -> emits s (body invalid x) (invalid || flagged (g x)) (g x)) ->
  forall invalid,
    emits s (foldM body l invalid) (invalid || flagged (flat_map g l)) (flat_map g l).
Proof.
  induction l as [|x l IH]; intros Hbody invalid; simpl.
  - rewrite orb_false_r. apply emits_ret.
  - rewrite flagged_app, orb_assoc. eapply emits_bind.
    + apply Hbody. now left.
    + apply IH. intros. apply Hbody. now right.
Qed.

(** [invalid |= report(...)] leaves [invalid] set. *)
Lemma emits_flag d invalid :
  printable s (diag_node d) ->
  emits s (let* r := report d in ret (invalid || r)) (invalid || flagged [d]) [d].
Proof.
  intros Hp. eapply emits_bind_last; [now apply emits_report|].
  simpl. rewrite orb_true_r. apply emits_ret.
Qed.

Lemma emits_keep (invalid : bool) : emits s (ret invalid) (invalid || flagged []) [].
Proof. simpl. rewrite orb_false_r. apply emits_ret. Qed.

Lemma emits_operands known nd ops :
  printable s nd ->
  forall invalid,
    emits s (foldM (checkOperands_operand known nd) ops invalid)
      (invalid || flagged (operand_diags known nd ops)) (operand_diags known nd ops).
Proof.
  intros Hp. apply emits_foldM_flag. intros invalid op _.
  unfold checkOperands_operand. fold (unknown_operand known op).
  destruct (unknown_operand known op).
  - apply (emits_flag (InvalOperands nd msg_unknown_operand)). exact Hp.
  - apply emits_keep.
Qed.

Lemma emits_arity nd n invalid :
  printable s nd -> mem s !! nd = Some n ->
  emits s (checkOperands_arity nd invalid)
    (invalid || flagged (arity_diags nd n)) (arity_diags nd n).
Proof.
  intros Hp Hn. assert (Hnd : nd <> nullptr) by apply Hp.
  unfold checkOperands_arity, arity_diags.
  eapply emits_bind_silent; [apply (emits_field s type); eassumption|].
  destruct (type n);
    (eapply emits_bind_silent;
     [apply (emits_field s (fun n => length (operands n))); eassumption|]).
  all: try (destruct (negb _);
            [apply (emits_flag (InvalOperands nd _)); exact Hp | apply emits_keep]).
  destruct (Nat.eqb _ 0).
  - apply (emits_flag (InvalOperands nd _)); exact Hp.
  - eapply emits_bind_silent.
    { unfold hasDuplicateOperand.
      eapply emits_bind_silent; [apply (emits_field s operands); eassumption|].
      apply emits_ret. }
    destruct (hasDuplicateOperand_loop _ _).
    + apply (emits_flag (InvalOperands nd _)); exact Hp.
    + apply emits_keep.
Qed.

Lemma emits_node known nd invalid :
  (nd <> nullptr -> printable s nd) ->
  emits s (checkOperands_node known invalid nd)
    (invalid || flagged (node_diags s known nd)) (node_diags s known nd).
Proof.
  intros Hp. unfold checkOperands_node, node_diags.
  destruct (N.eqb nd nullptr) eqn:Hnd; [apply emits_keep|].
  apply N.eqb_neq in Hnd. specialize (Hp Hnd).
  destruct Hp as (_ & n & Hn & Hops). rewrite Hn.
  assert (Hp : printable s nd) by (split; eauto).
  eapply emits_bind_silent; [apply (emits_field s operands); eassumption|].
  rewrite flagged_app, orb_assoc.
  eapply emits_bind; [now apply emits_operands|].
  now apply emits_arity.
Qed.

Lemma emits_checkOperands :
  mem_safe s = true ->
  emits s checkOperands (flagged (checkOperands_diags s)) (checkOperands_diags s).
Proof.
  intros Hs. unfold checkOperands, checkOperands_diags.
  eapply emits_bind_silent; [apply runs_getNodes|].
  rewrite flagged_app.
  eapply emits_bind.
  { apply emits_known. intros. now apply mem_safe_printable. }
  cbv beta iota. simpl orb.
  apply emits_foldM_flag. intros invalid nd Hin.
  apply emits_node. intros. now apply mem_safe_printable.
Qed.

End PassA.

(** ** The traversal *)

Lemma grows_succ l : forall acc, grows acc (fold_left expand_succ l acc) (fun x => In x l).
Proof.
  induction l as [|c l IH]; intros acc; simpl.
  - split; intros x; tauto.
  - destruct (IH (expand_succ acc c)) as [IH1 IH2].
    unfold expand_succ in *.
    destruct (bool_decide (c ∈ acc.1)) eqn:Hc.
    + apply bool_decide_eq_true in Hc. split; intros x.
      * rewrite IH1. split; [tauto|]. intros [?|[->|?]]; tauto.
      * rewrite IH2. tauto.
    + apply bool_decide_eq_false in Hc. simpl in *. split; intros x.
      * rewrite IH1. rewrite elem_of_union, elem_of_singleton.
        split; [intros [[->|?]|?]|intros [?|[->|?]]]; tauto.
      * rewrite IH2, in_app_iff, IH1, elem_of_union, elem_of_singleton. simpl.
        destruct (decide (x = c)) as [->|Hne]; [tauto|].
        split; [intros [[?|[?|[]]]|[? ?]]|intros [?|[[[?|?]|?] ?]]]; try tauto; congruence.
Qed.

Lemma grows_level m T : forall acc, grows acc (fold_left (expand_cur m) T acc) (succs_of m T).
Proof.
  induction T as [|y T IH]; intros acc; simpl.
  - split; intros x; [|tauto]. unfold succs_of. split; [tauto|].
    intros [?|(? & ? & [] & _)]. assumption.
  - destruct (IH (expand_cur m acc y)) as [IH1 IH2].
    assert (Hy : grows acc (expand_cur m acc y)
                   (fun x => exists n, m !! y = Some n /\ In x (successors n))).
    { unfold expand_cur. destruct (m !! y) as [n|].
      - destruct (grows_succ (successors n) acc) as [G1 G2]. split; intros x.
        + rewrite G1. split; [intros [?|?]; eauto|].
          intros [?|(n' & [= <-] & ?)]; tauto.
        + apply G2.
      - split; intros x; [|tauto]. split; [tauto|]. intros [?|(? & [=] & _)]. assumption. }
    destruct Hy as [Y1 Y2]. split; intros x.
    + rewrite IH1, Y1. unfold succs_of. split.
      * intros [[?|(n & ? & ?)]|(z & n & ? & ? & ?)]; [tauto| |].
        -- right. exists y, n. simpl. tauto.
        -- right. exists z, n. simpl. tauto.
      * intros [?|(z & n & [<-|?] & ? & ?)]; [tauto| |].
        -- left. right. eauto.
        -- right. exists z, n. tauto.
    + rewrite IH2, Y2. specialize (Y1 x). specialize (IH1 x).
      destruct (decide (x ∈ (expand_cur m acc y).1)); tauto.
Qed.

(** What one round leaves in the list is what it added to the set. *)
Lemma round_fresh m R T R' T' :
  fold_left (expand_cur m) T (R, []) = (R', T') ->
  (forall x, x ∈ R' <-> x ∈ R \/ succs_of m T x) /\
  (forall x, In x T' <-> x ∈ R' /\ x ∉ R).
Proof.
  intros Hfold. destruct (grows_level m T (R, [])) as [G1 G2].
  rewrite Hfold in G1, G2. simpl in G1, G2. split; [exact G1|].
  intros x. rewrite G2. tauto.
Qed.

Lemma round_measure m R T R' T' :
  T <> [] ->
  (forall x, In x T -> x ∈ R) ->
  forallb (allocated m) T = true ->
  fold_left (expand_cur m) T (R, []) = (R', T') ->
  (unexpanded m R' T' < unexpanded m R T)%nat.
Proof.
  intros Hne HT Hal Hfold. destruct (round_fresh m R T R' T' Hfold) as [G1 HT'].
  unfold unexpanded. apply subset_size.
  destruct T as [|t T]; [congruence|].
  assert (HtR : t ∈ R) by (apply HT; now left).
  assert (Htd : t ∈ dom m).
  { rewrite forallb_forall in Hal. specialize (Hal t (or_introl eq_refl)).
    unfold allocated in Hal. apply andb_prop in Hal as [_ Hal].
    apply bool_decide_eq_true in Hal. now apply elem_of_dom. }
  split.
  - intros x. rewrite !elem_of_difference, !elem_of_list_to_set, !list_elem_of_In.
    rewrite HT'. intros [Hd Hx]. split; [assumption|]. intros [HxR _]. apply Hx.
    split; [apply G1; now left|]. tauto.
  - intros Hsub. specialize (Hsub t).
    rewrite !elem_of_difference, !elem_of_list_to_set, !list_elem_of_In in Hsub.
    rewrite HT' in Hsub. destruct Hsub as [_ Hsub].
    + split; [assumption|]. intros [_ Ht]. apply Ht. now left.
    + apply Hsub. split; [apply G1; now left|]. tauto.
Qed.

Lemma bfs_round m nd R T R' T' :
  bfs_inv m nd R T ->
  fold_left (expand_cur m) T (R, []) = (R', T') ->
  bfs_inv m nd R' T'.
Proof.
  intros (Hnd & Hpath & HT & Hclosed) Hfold.
  destruct (round_fresh m R T R' T' Hfold) as [G1 HT'].
  split; [|split; [|split]].
  - apply G1. now left.
  - intros x [Hx|(y & n & Hy & Hn & Hx)]%G1; [now apply Hpath|].
    eapply path_step; [apply Hpath, HT, Hy|exact Hn|exact Hx].
  - intros x Hx. now apply HT' in Hx.
  - intros x n c Hx HxT' Hn Hc. apply G1.
    destruct (decide (x ∈ R)) as [HxR|HxR].
    + destruct (in_dec N.eq_dec x T) as [HxT|HxT].
      * right. exists x, n. tauto.
      * left. eapply Hclosed; eassumption.
    + exfalso. apply HxT', HT'. now split.
Qed.

Lemma bfs_inv_start m nd : bfs_inv m nd {[nd]} [nd].
Proof.
  split; [|split; [|split]].
  - now apply elem_of_singleton.
  - intros x ->%elem_of_singleton. constructor.
  - intros x [<-|[]]. now apply elem_of_singleton.
  - intros x n c ->%elem_of_singleton Hx. exfalso. apply Hx. now left.
Qed.

Lemma bfs_inv_complete m nd R x : bfs_inv m nd R [] -> path m nd x -> x ∈ R.
Proof.
  intros (Hnd & _ & _ & Hclosed). induction 1 as [|b c n _ IH Hn Hc]; [assumption|].
  eapply Hclosed; eauto.
Qed.

Lemma unexpanded_start m nd : (unexpanded m {[nd]} [nd] < S (size m))%nat.
Proof.
  unfold unexpanded. rewrite <- size_dom. apply Nat.lt_succ_r.
  apply subseteq_size. intros x [Hx _]%elem_of_difference. exact Hx.
Qed.

Section Traversal.
Context (s : state).

Lemma deref_eq p :
  deref p s = match (if allocated (mem s) p then mem s !! p else None) with
             | Some n => Ok (n, s)
             | None => Fault
             end.
Proof.
  unfold deref, allocated. destruct (N.eqb p nullptr); simpl; [reflexivity|].
  destruct (mem s !! p) eqn:Hp.
  - rewrite bool_decide_eq_true_2; eauto.
  - rewrite bool_decide_eq_false_2; [reflexivity|]. intros [? ?]. congruence.
Qed.

Lemma foldM_succ_eq l : forall acc,
  foldM reachableNodes_succ l acc s = Ok (fold_left expand_succ l acc, s).
Proof.
  induction l as [|c l IH]; intros [R N']; simpl; [reflexivity|].
  unfold bind, reachableNodes_succ, expand_succ. simpl.
  destruct (bool_decide (c ∈ R)); apply IH.
Qed.

Lemma round_eq T : forall acc,
  foldM reachableNodes_cur T acc s =
  if forallb (allocated (mem s)) T
  then Ok (fold_left (expand_cur (mem s)) T acc, s) else Fault.
Proof.
  induction T as [|cur T IH]; intros acc; simpl; [reflexivity|].
  unfold bind at 1. unfold reachableNodes_cur at 1, getSuccessors, bind.
  rewrite deref_eq. unfold expand_cur at 2.
  destruct (allocated (mem s) cur) eqn:Hcur; simpl.
  - destruct (allocated_lookup s cur Hcur) as (_ & n & Hn). rewrite Hn.
    unfold ret. rewrite foldM_succ_eq. apply IH.
  - reflexivity.
Qed.

(** The bound of the loop is never reached, on any heap, and the loop
    only adds to the set. *)
Lemma reachableNodes_while_terminates : forall fuel R T,
  (forall x, In x T -> x ∈ R) ->
  (unexpanded (mem s) R T < fuel)%nat ->
  reachableNodes_while fuel R T s <> OutOfFuel /\
  forall R' s', reachableNodes_while fuel R T s = Ok (R', s') -> s' = s /\ R ⊆ R'.
Proof.
  induction fuel as [|fuel IH]; intros R T HT Hfuel; [lia|].
  destruct T as [|t T].
  - simpl. split; [discriminate|]. intros R' s' [= <- <-]. split; set_solver.
  - cbn [reachableNodes_while]. unfold bind. rewrite round_eq.
    destruct (forallb (allocated (mem s)) (t :: T)) eqn:Hal; [|split; discriminate].
    destruct (fold_left (expand_cur (mem s)) (t :: T) (R, [])) as [R1 T1] eqn:Hfold.
    destruct (round_fresh _ _ _ _ _ Hfold) as [G1 HT1].
    destruct (IH R1 T1) as [Hno Hok].
    + intros x Hx. now apply HT1 in Hx.
    + pose proof (round_measure _ R (t :: T) R1 T1 ltac:(congruence) HT Hal Hfold). lia.
    + split; [exact Hno|]. intros R' s' Hrun.
      destruct (Hok R' s' Hrun) as [-> Hsub]. split; [reflexivity|].
      intros x Hx. apply Hsub, G1. now left.
Qed.

(** The start node is dereferenced: without a root the traversal, and
    with it [checkEdges] and [validate], is undefined. *)
Lemma reachableNodes_nullptr : reachableNodes nullptr s = Fault.
Proof.
  unfold reachableNodes. cbn [reachableNodes_while]. unfold bind.
  rewrite round_eq. reflexivity.
Qed.

Lemma path_allocated nd x :
  mem_safe s = true -> allocated (mem s) nd = true -> path (mem s) nd x ->
  allocated (mem s) x = true.
Proof.
  intros Hs Hnd. induction 1 as [|b c n _ IH Hn Hc]; [assumption|].
  eapply mem_safe_successors; eassumption.
Qed.

Lemma reachableNodes_while_ok nd :
  mem_safe s = true -> allocated (mem s) nd = true ->
  forall fuel R T,
    bfs_inv (mem s) nd R T ->
    (unexpanded (mem s) R T < fuel)%nat ->
    exists R', reachableNodes_while fuel R T s = Ok (R', s) /\ bfs_inv (mem s) nd R' [].
Proof.
  intros Hs Hnd. induction fuel as [|fuel IH]; intros R T Hinv Hfuel; [lia|].
  destruct T as [|t T].
  - exists R. split; [reflexivity|assumption].
  - cbn [reachableNodes_while]. unfold bind. rewrite round_eq.
    assert (Hal : forallb (allocated (mem s)) (t :: T) = true).
    { apply forallb_forall. intros x Hx.
      apply (path_allocated nd x Hs Hnd). apply Hinv. now apply Hinv. }
    rewrite Hal.
    destruct (fold_left (expand_cur (mem s)) (t :: T) (R, [])) as [R1 T1] eqn:Hfold.
    apply IH.
    + eapply bfs_round; eassumption.
    + assert (HT : forall x, In x (t :: T) -> x ∈ R) by apply Hinv.
      pose proof (round_measure _ R (t :: T) R1 T1 ltac:(congruence) HT Hal Hfold). lia.
Qed.

Lemma reachableNodes_ok nd :
  mem_safe s = true -> allocated (mem s) nd = true ->
  exists R, reachableNodes nd s = Ok (R, s) /\ forall x, x ∈ R <-> path (mem s) nd x.
Proof.
  intros Hs Hnd.
  destruct (reachableNodes_while_ok nd Hs Hnd (S (size (mem s))) {[nd]} [nd])
    as (R & Hrun & Hinv).
  - apply bfs_inv_start.
  - apply unexpanded_start.
  - exists R. split; [exact Hrun|].
    intros x. split; [apply Hinv|now apply (bfs_inv_complete (mem s) nd)].
Qed.

End Traversal.

Section TraversalEmits.
Context `{Externals}.

Lemma emits_reachableNodes s nd :
  mem_safe s = true -> allocated (mem s) nd = true ->
  exists R, emits s (reachableNodes nd) R [] /\ forall x, x ∈ R <-> path (mem s) nd x.
Proof.
  intros Hs Hnd.
  destruct (reachableNodes_ok (set_errors s EmptyString) nd Hs Hnd) as (R & _ & HR).
  exists R. split; [|exact HR].
  intros e. destruct (reachableNodes_ok (set_errors s e) nd Hs Hnd) as (R' & Hrun & HR').
  rewrite Hrun. simpl. rewrite append_nil_r.
  assert (R' = R) as ->; [|reflexivity].
  apply set_eq. intros x. rewrite HR, HR'. reflexivity.
Qed.

End TraversalEmits.

(** ** The passes refine their lists: Pass B *)

Section PassB.
Context `{Externals}.
Context (s : state).

Lemma emits_canBeOutsideGraph nd n :
  nd <> nullptr -> mem s !! nd = Some n ->
  emits s (canBeOutsideGraph nd) (outside_kind (type n)) [].
Proof.
  intros Hnd Hn. unfold canBeOutsideGraph.
  eapply emits_bind_silent; [apply (emits_field s type); eassumption|].
  apply emits_ret.
Qed.

Lemma emits_successors nd succs :
  printable s nd ->
  (forall c, In c succs -> allocated (mem s) c = true) ->
  forall invalid,
    emits s (foldM (fun invalid succ =>
                      let* p := isInPredecessors nd succ in
                      if negb p then
                        let* b := reportInvalEdges nd msg_not_predecessor in
                        ret (invalid || b)
                      else ret invalid) succs invalid)
      (invalid || flagged (successor_diags s nd succs)) (successor_diags s nd succs).
Proof.
  intros Hp Hal. apply emits_foldM_flag. intros invalid c Hc.
  destruct (allocated_lookup s c (Hal c Hc)) as (Hc0 & m & Hm). rewrite Hm.
  eapply emits_bind_silent.
  { unfold isInPredecessors.
    eapply emits_bind_silent; [apply (emits_field s predecessors); eassumption|].
    apply emits_ret. }
  destruct (existsb (N.eqb nd) (predecessors m)); simpl negb; cbv iota.
  - apply emits_keep.
  - apply (emits_flag s (InvalEdges nd msg_not_predecessor)). exact Hp.
Qed.

Lemma emits_predecessors nd n invalid :
  printable s nd -> mem s !! nd = Some n ->
  emits s (if Nat.eqb (length (predecessors n)) 0 && negb (N.eqb nd (root (PS s))) then
             let* out := canBeOutsideGraph nd in
             if negb out then
               let* b := reportInvalEdges nd msg_no_predecessors in ret (invalid || b)
             else ret invalid
           else ret invalid)
    (invalid || flagged (predecessor_diags s nd n)) (predecessor_diags s nd n).
Proof.
  intros Hp Hn. assert (Hnd : nd <> nullptr) by apply Hp. unfold predecessor_diags.
  destruct (Nat.eqb (length (predecessors n)) 0 && negb (N.eqb nd (root (PS s))));
    simpl andb; cbv iota; [|apply emits_keep].
  eapply emits_bind_silent; [apply emits_canBeOutsideGraph; eassumption|].
  destruct (outside_kind (type n)); simpl negb; cbv iota.
  - apply emits_keep.
  - apply (emits_flag s (InvalEdges nd msg_no_predecessors)). exact Hp.
Qed.

Lemma emits_edges nd invalid :
  mem_safe s = true ->
  (nd <> nullptr -> printable s nd) ->
  emits s (checkEdges_node invalid nd)
    (invalid || flagged (edge_diags s nd)) (edge_diags s nd).
Proof.
  intros Hs Hp. unfold checkEdges_node, edge_diags.
  destruct (N.eqb nd nullptr) eqn:Hnd; [apply emits_keep|].
  apply N.eqb_neq in Hnd. specialize (Hp Hnd).
  destruct Hp as (_ & n & Hn & Hops). rewrite Hn.
  assert (Hp : printable s nd) by (split; eauto).
  eapply emits_bind_silent;
    [apply (emits_field s (fun n => length (predecessors n))); eassumption|].
  eapply emits_bind_silent; [apply runs_getRoot|].
  rewrite flagged_app, orb_assoc.
  eapply emits_bind.
  - apply emits_predecessors; eassumption.
  - eapply emits_bind_silent; [apply (emits_field s successors); eassumption|].
    apply emits_successors; [exact Hp|].
    intros c Hc. eapply mem_safe_successors; eassumption.
Qed.

Lemma emits_unreachable reachable nd invalid :
  (nd <> nullptr -> printable s nd) ->
  emits s (checkEdges_reachable reachable invalid nd)
    (invalid || flagged (unreachable_diags s reachable nd))
    (unreachable_diags s reachable nd).
Proof.
  intros Hp. unfold checkEdges_reachable, unreachable_diags.
  destruct (N.eqb nd nullptr) eqn:Hnd; [apply emits_keep|].
  apply N.eqb_neq in Hnd. specialize (Hp Hnd).
  destruct (bool_decide (nd ∈ reachable)); simpl negb; cbv iota; [apply emits_keep|].
  destruct Hp as (_ & n & Hn & Hops). rewrite Hn.
  assert (Hp : printable s nd) by (split; eauto).
  eapply emits_bind_silent; [apply emits_canBeOutsideGraph; eassumption|].
  destruct (outside_kind (type n)); simpl negb; cbv iota.
  - apply emits_keep.
  - apply (emits_flag s (UnreachableNode nd)). exact Hp.
Qed.

Lemma reachable_from_root_spec :
  mem_safe s = true ->
  emits s (reachableNodes (root (PS s))) (reachable_from_root s) [] /\
  forall x, x ∈ reachable_from_root s <-> path (mem s) (root (PS s)) x.
Proof.
  intros Hs.
  destruct (emits_reachableNodes s (root (PS s)) Hs (mem_safe_root s Hs)) as (R & Hrun & HR).
  assert (reachable_from_root s = R) as ->; [|now split].
  unfold reachable_from_root. now rewrite (runs_here s _ _ _ Hrun).
Qed.

Lemma emits_checkEdges :
  mem_safe s = true ->
  emits s checkEdges (flagged (checkEdges_diags s)) (checkEdges_diags s).
Proof.
  intros Hs. unfold checkEdges, checkEdges_diags.
  eapply emits_bind_silent; [apply runs_getNodes|].
  rewrite flagged_app.
  eapply emits_bind.
  { apply (emits_foldM_flag s checkEdges_node (edge_diags s)). intros invalid nd Hin.
    apply emits_edges; [exact Hs|]. intros. now apply mem_safe_printable. }
  simpl orb.
  eapply emits_bind_silent; [apply runs_getRoot|].
  eapply emits_bind_silent; [apply reachable_from_root_spec, Hs|].
  apply emits_foldM_flag. intros invalid nd Hin.
  apply emits_unreachable. intros. now apply mem_safe_printable.
Qed.

Lemma emits_validate :
  mem_safe s = true ->
  emits s validate (flagged (validate_diags s)) (validate_diags s).
Proof.
  intros Hs. unfold validate, validate_diags. rewrite flagged_app.
  eapply emits_bind; [now apply emits_checkOperands|].
  eapply emits_bind_last; [now apply emits_checkEdges|].
  apply emits_ret.
Qed.

End PassB.

(** ** What the list of Pass A holds *)

Lemma known_set_spec l : forall (K : gset N) x,
  x ∈ known_set K l <-> x ∈ K \/ (x <> nullptr /\ In x l).
Proof.
  induction l as [|y l IH]; intros K x; simpl.
  - tauto.
  - destruct (N.eqb y nullptr) eqn:Hy.
    + apply N.eqb_eq in Hy. rewrite IH. split; [tauto|].
      intros [?|[? [?|?]]]; [tauto|congruence|tauto].
    + apply N.eqb_neq in Hy. destruct (bool_decide (y ∈ K)) eqn:HyK.
      * apply bool_decide_eq_true in HyK. rewrite IH. split; [tauto|].
        intros [?|[? [<-|?]]]; tauto.
      * rewrite IH, elem_of_union, elem_of_singleton. split.
        -- intros [[->|?]|?]; tauto.
        -- intros [?|[? [<-|?]]]; tauto.
Qed.

Lemma known_diags_shape l : forall (K : gset N) d,
  In d (known_diags K l) ->
  exists nd, d = InvalNode nd msg_multiple /\ nd <> nullptr /\ In nd l.
Proof.
  induction l as [|y l IH]; intros K d; simpl; [tauto|].
  destruct (N.eqb y nullptr) eqn:Hy.
  - intros (nd & ? & ? & ?)%IH. eauto.
  - apply N.eqb_neq in Hy. destruct (bool_decide (y ∈ K)).
    + intros [<-|(nd & ? & ? & ?)%IH]; eauto.
    + intros (nd & ? & ? & ?)%IH. eauto.
Qed.

Lemma known_diags_count l : forall (K : gset N) nd,
  nd <> nullptr ->
  count_occ diag_eq_dec (known_diags K l) (InvalNode nd msg_multiple)
  = (count_occ N.eq_dec l nd - (if bool_decide (nd ∈ K) then 0 else 1))%nat.
Proof.
  induction l as [|y l IH]; intros K nd Hnd; simpl; [reflexivity|].
  destruct (N.eqb y nullptr) eqn:Hy.
  - apply N.eqb_eq in Hy. rewrite IH by assumption.
    destruct (N.eq_dec y nd); [congruence|reflexivity].
  - destruct (bool_decide (y ∈ K)) eqn:HyK.
    + apply bool_decide_eq_true in HyK.
      destruct (N.eq_dec y nd) as [->|Hne].
      * rewrite count_occ_cons_eq by reflexivity. rewrite IH by assumption.
        rewrite bool_decide_eq_true_2 by assumption. lia.
      * rewrite count_occ_cons_neq by congruence. now apply IH.
    + apply bool_decide_eq_false in HyK. rewrite IH by assumption.
      destruct (N.eq_dec y nd) as [->|Hne].
      * rewrite bool_decide_eq_true_2 by set_solver.
        rewrite (bool_decide_eq_false_2 _ HyK). lia.
      * destruct (bool_decide (nd ∈ K)) eqn:HK.
        -- apply bool_decide_eq_true in HK. rewrite bool_decide_eq_true_2 by set_solver.
           reflexivity.
        -- apply bool_decide_eq_false in HK. rewrite bool_decide_eq_false_2; [reflexivity|].
           intros [Hy'%elem_of_singleton|HK']%elem_of_union; [congruence|contradiction].
Qed.

Lemma hasDuplicateOperand_loop_false l : forall (K : gset N),
  hasDuplicateOperand_loop K l = false <-> NoDup l /\ forall x, In x l -> x ∉ K.
Proof.
  induction l as [|y l IH]; intros K; simpl.
  - split; [intros _; split; [constructor|tauto]|reflexivity].
  - destruct (bool_decide (y ∈ K)) eqn:HyK.
    + apply bool_decide_eq_true in HyK. split; [discriminate|].
      intros [_ Hx]. exfalso. apply (Hx y); tauto.
    + apply bool_decide_eq_false in HyK. rewrite IH. split.
      * intros [Hnd Hx]. split.
        -- apply NoDup_cons_2; [|assumption]. intros Hy%list_elem_of_In.
           apply (Hx y Hy), elem_of_union. left. now apply elem_of_singleton.
        -- intros x [<-|Hin]; [assumption|]. specialize (Hx x Hin).
           intros HxK. apply Hx, elem_of_union. now right.
      * intros [Hnd Hx]. apply NoDup_cons in Hnd as [Hy Hnd]. split; [assumption|].
        intros x Hin [->%elem_of_singleton|HxK]%elem_of_union.
        -- apply Hy, list_elem_of_In, Hin.
        -- apply (Hx x); tauto.
Qed.

Lemma hasDuplicateOperand_loop_spec l :
  hasDuplicateOperand_loop ∅ l = true <-> ~ NoDup l.
Proof.
  pose proof (hasDuplicateOperand_loop_false l ∅) as Hf.
  destruct (hasDuplicateOperand_loop ∅ l).
  - split; [|reflexivity]. intros _ Hnd.
    assert (true = false); [|discriminate]. apply Hf. split; [assumption|set_solver].
  - split; [discriminate|]. intros Hn. exfalso. apply Hn. now apply Hf.
Qed.

Section PassA_spec.
Context `{Externals}.
Context (s : state).

Lemma unknown_operand_spec op :
  unknown_operand (known_set ∅ (nodes (PS s))) op = true
  <-> ~ is_sentinel op /\ ~ in_node_set s op.
Proof.
  unfold unknown_operand, is_sentinel, in_node_set.
  rewrite !andb_true_iff, !negb_true_iff, !N.eqb_neq, bool_decide_eq_false.
  rewrite known_set_spec. split.
  - intros [[[? ?] ?] Hk]. split; [tauto|]. intros ?. apply Hk. now right.
  - intros [Hs Hk]. repeat split; try tauto. intros [[]%not_elem_of_empty|?]. tauto.
Qed.

Lemma operand_diags_In K nd ops d :
  In d (operand_diags K nd ops)
  <-> d = InvalOperands nd msg_unknown_operand
      /\ exists op, In op ops /\ unknown_operand K op = true.
Proof.
  unfold operand_diags. rewrite in_flat_map. split.
  - intros (op & Hop & Hd). destruct (unknown_operand K op) eqn:Hu; [|destruct Hd].
    destruct Hd as [<-|[]]. eauto.
  - intros (-> & op & Hop & Hu). exists op. split; [assumption|]. rewrite Hu. now left.
Qed.

Lemma arity_diags_In nd n d :
  In d (arity_diags nd n)
  <-> exists msg, d = InvalOperands nd msg /\ arity_violation (type n) (operands n) msg.
Proof.
  unfold arity_diags, arity_violation.
  assert (Hlen : forall k, Nat.eqb (length (operands n)) k = true <-> length (operands n) = k)
    by (intros; apply Nat.eqb_eq).
  assert (Hnil : length (operands n) = 0%nat <-> operands n = [])
    by apply length_zero_iff_nil.
  pose proof (hasDuplicateOperand_loop_spec (operands n)) as Hdup.
  destruct (type n);
    try (destruct (Nat.eqb (length (operands n)) _) eqn:He; simpl;
         [apply Hlen in He|apply Nat.eqb_neq in He];
         (split; [intros Hd; try destruct Hd as [<-|[]]; try tauto; eauto
                 |intros (msg & -> & Hv); try tauto; destruct Hv as [? ->]; tauto])).
  destruct (Nat.eqb (length (operands n)) 0) eqn:He;
    [apply Hlen in He|apply Nat.eqb_neq in He].
  - split.
    + intros [<-|[]]. exists msg_empty_phi. tauto.
    + intros (msg & -> & [[_ ->]|[? _]]); [now left|tauto].
  - destruct (hasDuplicateOperand_loop ∅ (operands n)) eqn:Hd.
    + split.
      * intros [<-|[]]. exists msg_phi_duplicate. split; [reflexivity|]. right. tauto.
      * intros (msg & -> & [[? _]|(_ & _ & ->)]); [tauto|now left].
    + split; [intros []|].
      intros (msg & -> & [[? _]|(_ & Hn & _)]); [tauto|].
      apply Hdup in Hn. discriminate.
Qed.

Lemma arity_violation_contract k ops :
  (exists msg, arity_violation k ops msg) <-> ~ arity_contract k ops.
Proof.
  unfold arity_violation, arity_contract.
  destruct k; try (split; [intros (msg & ? & _); assumption|intros ?; eauto]).
  split.
  - intros (msg & [[-> _]|(_ & Hn & _)]) [Hl Hnd]; [simpl in Hl; lia|tauto].
  - intros Hc. destruct ops as [|o ops]; [exists msg_empty_phi; tauto|].
    exists msg_phi_duplicate. right. split; [discriminate|]. split; [|reflexivity].
    intros Hnd. apply Hc. split; [simpl; lia|assumption].
Qed.

Lemma arity_violation_not_unknown k ops msg :
  arity_violation k ops msg -> msg <> msg_unknown_operand.
Proof.
  unfold arity_violation.
  destruct k; intros Hv; try (destruct Hv as [_ ->]; discriminate);
    destruct Hv as [[_ ->]|(_ & _ & ->)]; discriminate.
Qed.

Lemma node_diags_In K nd d :
  In d (node_diags s K nd)
  <-> nd <> nullptr /\ exists n, mem s !! nd = Some n
      /\ (In d (operand_diags K nd (operands n)) \/ In d (arity_diags nd n)).
Proof.
  unfold node_diags. destruct (N.eqb nd nullptr) eqn:Hnd.
  - apply N.eqb_eq in Hnd. split; [intros []|tauto].
  - apply N.eqb_neq in Hnd. destruct (mem s !! nd) as [n|].
    + rewrite in_app_iff. split; [eauto|]. intros (_ & n' & [= <-] & ?). assumption.
    + split; [intros []|]. intros (_ & n' & [=] & _).
Qed.

Lemma checkOperands_diags_In d :
  In d (checkOperands_diags s)
  <-> In d (known_diags ∅ (nodes (PS s)))
      \/ exists nd n, in_node_set s nd /\ mem s !! nd = Some n
         /\ (In d (operand_diags (known_set ∅ (nodes (PS s))) nd (operands n))
             \/ In d (arity_diags nd n)).
Proof.
  unfold checkOperands_diags. rewrite in_app_iff, in_flat_map.
  split; (intros [?|Hd]; [now left|right]).
  - destruct Hd as (nd & Hin & (Hnd & n & Hn & Hd)%node_diags_In).
    exists nd, n. unfold in_node_set. tauto.
  - destruct Hd as (nd & n & [Hnd Hin] & Hn & Hd).
    exists nd. split; [assumption|]. apply node_diags_In. eauto.
Qed.

(** The three kinds of entries of Pass A. *)
Lemma diags_multiple_count nd :
  nd <> nullptr ->
  count_occ diag_eq_dec (checkOperands_diags s) (InvalNode nd msg_multiple)
  = (count_occ N.eq_dec (nodes (PS s)) nd - 1)%nat.
Proof.
  intros Hnd. unfold checkOperands_diags. rewrite count_occ_app.
  rewrite known_diags_count by assumption.
  rewrite (bool_decide_eq_false_2 (nd ∈ (∅ : gset N))) by set_solver.
  match goal with |- (_ + ?c = _)%nat => assert (c = 0%nat) as ->; [|lia] end.
  apply count_occ_not_In. rewrite in_flat_map.
  intros (x & _ & Hd). apply node_diags_In in Hd as (_ & n & _ & Hd).
  destruct Hd as [(Hd & _)%operand_diags_In|(msg & Hd & _)%arity_diags_In];
    discriminate.
Qed.

Lemma diags_unknown_operand nd :
  In (InvalOperands nd msg_unknown_operand) (checkOperands_diags s)
  <-> exists n op, in_node_set s nd /\ mem s !! nd = Some n /\ In op (operands n)
        /\ ~ is_sentinel op /\ ~ in_node_set s op.
Proof.
  rewrite checkOperands_diags_In. split.
  - intros [(x & Hd & _)%known_diags_shape|(x & n & Hx & Hn & Hd)]; [discriminate|].
    destruct Hd as [([= <-] & op & Hop & Hu)%operand_diags_In
                   |(msg & [= <- <-] & Hv)%arity_diags_In].
    + apply unknown_operand_spec in Hu. exists n, op. tauto.
    + now apply arity_violation_not_unknown in Hv.
  - intros (n & op & Hnd & Hn & Hop & Hs & Hk). right. exists nd, n.
    split; [assumption|]. split; [assumption|]. left. apply operand_diags_In.
    split; [reflexivity|]. exists op. split; [assumption|].
    apply unknown_operand_spec. tauto.
Qed.

Lemma diags_arity nd msg :
  msg <> msg_unknown_operand ->
  In (InvalOperands nd msg) (checkOperands_diags s)
  <-> exists n, in_node_set s nd /\ mem s !! nd = Some n
        /\ arity_violation (type n) (operands n) msg.
Proof.
  intros Hmsg. rewrite checkOperands_diags_In. split.
  - intros [(x & Hd & _)%known_diags_shape|(x & n & Hx & Hn & Hd)]; [discriminate|].
    destruct Hd as [([= _ Hm] & _)%operand_diags_In
                   |(msg' & [= <- <-] & Hv)%arity_diags_In]; [congruence|].
    exists n. tauto.
  - intros (n & Hnd & Hn & Hv). right. exists nd, n.
    split; [assumption|]. split; [assumption|]. right. apply arity_diags_In. eauto.
Qed.

End PassA_spec.

(** ** What the list of Pass B holds *)

Lemma existsb_eqb_In nd (l : list ptr) : existsb (N.eqb nd) l = true <-> In nd l.
Proof.
  rewrite existsb_exists. split.
  - intros (x & Hx & ->%N.eqb_eq). assumption.
  - intros Hin. exists nd. split; [assumption|apply N.eqb_refl].
Qed.

Section PassB_spec.
Context `{Externals}.
Context (s : state).

Lemma outside_kind_spec k : outside_kind k = true <-> may_exist_outside k.
Proof.
  unfold outside_kind, may_exist_outside.
  rewrite !orb_true_iff, !bool_decide_eq_true. tauto.
Qed.

Lemma successor_diags_In nd succs d :
  In d (successor_diags s nd succs)
  <-> d = InvalEdges nd msg_not_predecessor
      /\ exists b nb, In b succs /\ mem s !! b = Some nb /\ ~ In nd (predecessors nb).
Proof.
  unfold successor_diags. rewrite in_flat_map. split.
  - intros (b & Hb & Hd). destruct (mem s !! b) as [nb|] eqn:Hnb; [|destruct Hd].
    destruct (existsb (N.eqb nd) (predecessors nb)) eqn:He; [destruct Hd|].
    destruct Hd as [<-|[]]. split; [reflexivity|]. exists b, nb.
    split; [assumption|]. split; [assumption|].
    intros Hin%existsb_eqb_In. congruence.
  - intros (-> & b & nb & Hb & Hnb & Hp). exists b. split; [assumption|].
    rewrite Hnb. destruct (existsb (N.eqb nd) (predecessors nb)) eqn:He; [|now left].
    apply existsb_eqb_In in He. contradiction.
Qed.

Lemma predecessor_diags_In nd n d :
  In d (predecessor_diags s nd n)
  <-> d = InvalEdges nd msg_no_predecessors
      /\ predecessors n = [] /\ nd <> root (PS s) /\ ~ may_exist_outside (type n).
Proof.
  unfold predecessor_diags.
  destruct (Nat.eqb (length (predecessors n)) 0 && negb (N.eqb nd (root (PS s)))
            && negb (outside_kind (type n))) eqn:Hc.
  - apply andb_prop in Hc as [[Hl Hr]%andb_prop Ho].
    apply Nat.eqb_eq, length_zero_iff_nil in Hl.
    apply negb_true_iff, N.eqb_neq in Hr. apply negb_true_iff in Ho.
    split; [intros [<-|[]]|intros (-> & _); now left].
    repeat split; try assumption. intros Hm%outside_kind_spec. congruence.
  - split; [intros []|]. intros (_ & Hl & Hr & Ho).
    rewrite Hl in Hc. simpl in Hc. apply N.eqb_neq in Hr. rewrite Hr in Hc. simpl in Hc.
    apply negb_false_iff, outside_kind_spec in Hc. contradiction.
Qed.

Lemma edge_diags_In nd d :
  In d (edge_diags s nd)
  <-> nd <> nullptr /\ exists n, mem s !! nd = Some n
      /\ (In d (predecessor_diags s nd n) \/ In d (successor_diags s nd (successors n))).
Proof.
  unfold edge_diags. destruct (N.eqb nd nullptr) eqn:Hnd.
  - apply N.eqb_eq in Hnd. split; [intros []|tauto].
  - apply N.eqb_neq in Hnd. destruct (mem s !! nd) as [n|].
    + rewrite in_app_iff. split; [eauto|]. intros (_ & n' & [= <-] & ?). assumption.
    + split; [intros []|]. intros (_ & n' & [=] & _).
Qed.

Lemma unreachable_diags_In R nd d :
  In d (unreachable_diags s R nd)
  <-> d = UnreachableNode nd /\ nd <> nullptr /\ (nd ∉ R)
      /\ exists n, mem s !! nd = Some n /\ ~ may_exist_outside (type n).
Proof.
  unfold unreachable_diags. destruct (N.eqb nd nullptr) eqn:Hnd.
  - apply N.eqb_eq in Hnd. split; [intros []|tauto].
  - apply N.eqb_neq in Hnd. destruct (bool_decide (nd ∈ R)) eqn:HR.
    + apply bool_decide_eq_true in HR. split; [intros []|tauto].
    + apply bool_decide_eq_false in HR. destruct (mem s !! nd) as [n|].
      * destruct (outside_kind (type n)) eqn:Ho.
        -- apply outside_kind_spec in Ho. split; [intros []|].
           intros (_ & _ & _ & n' & [= <-] & ?). contradiction.
        -- split; [intros [<-|[]]|intros (-> & _); now left].
           repeat split; try assumption. exists n. split; [reflexivity|].
           intros Hm%outside_kind_spec. congruence.
      * split; [intros []|]. intros (_ & _ & _ & n' & [=] & _).
Qed.

Lemma checkEdges_diags_In d :
  In d (checkEdges_diags s)
  <-> exists nd n, in_node_set s nd /\ mem s !! nd = Some n
      /\ (In d (predecessor_diags s nd n)
          \/ In d (successor_diags s nd (successors n))
          \/ (d = UnreachableNode nd /\ (nd ∉ reachable_from_root s)
              /\ ~ may_exist_outside (type n))).
Proof.
  unfold checkEdges_diags. rewrite in_app_iff, !in_flat_map. split.
  - intros [(nd & Hin & (Hnd & n & Hn & Hd)%edge_diags_In)
           |(nd & Hin & (-> & Hnd & HR & n & Hn & Ho)%unreachable_diags_In)];
      exists nd, n; unfold in_node_set; tauto.
  - intros (nd & n & [Hnd Hin] & Hn & [Hd|[Hd|(-> & HR & Ho)]]).
    + left. exists nd. split; [assumption|]. apply edge_diags_In. eauto.
    + left. exists nd. split; [assumption|]. apply edge_diags_In. eauto.
    + right. exists nd. split; [assumption|]. apply unreachable_diags_In.
      repeat split; try assumption. eauto.
Qed.

Lemma diags_not_predecessor a :
  In (InvalEdges a msg_not_predecessor) (checkEdges_diags s)
  <-> exists na b nb, in_node_set s a /\ mem s !! a = Some na /\ In b (successors na)
        /\ mem s !! b = Some nb /\ ~ In a (predecessors nb).
Proof.
  rewrite checkEdges_diags_In. split.
  - intros (nd & n & Hnd & Hn & [Hd|[Hd|(Hd & _)]]).
    + apply predecessor_diags_In in Hd as ([=] & _).
    + apply successor_diags_In in Hd as ([= <-] & b & nb & Hb & Hnb & Hp).
      exists n, b, nb. tauto.
    + discriminate.
  - intros (na & b & nb & Ha & Hna & Hb & Hnb & Hp). exists a, na.
    split; [assumption|]. split; [assumption|]. right. left.
    apply successor_diags_In. split; [reflexivity|]. exists b, nb. tauto.
Qed.

Lemma diags_no_predecessors nd :
  In (InvalEdges nd msg_no_predecessors) (checkEdges_diags s)
  <-> exists n, in_node_set s nd /\ mem s !! nd = Some n /\ predecessors n = []
        /\ nd <> root (PS s) /\ ~ may_exist_outside (type n).
Proof.
  rewrite checkEdges_diags_In. split.
  - intros (x & n & Hx & Hn & [Hd|[Hd|(Hd & _)]]).
    + apply predecessor_diags_In in Hd as ([= <-] & ?). exists n. tauto.
    + apply successor_diags_In in Hd as ([=] & _).
    + discriminate.
  - intros (n & Hnd & Hn & Hp). exists nd, n.
    split; [assumption|]. split; [assumption|]. left.
    apply predecessor_diags_In. tauto.
Qed.

Lemma diags_unreachable nd :
  mem_safe s = true ->
  In (UnreachableNode nd) (checkEdges_diags s)
  <-> exists n, in_node_set s nd /\ mem s !! nd = Some n
        /\ ~ path (mem s) (root (PS s)) nd /\ ~ may_exist_outside (type n).
Proof.
  intros Hs. destruct (reachable_from_root_spec s Hs) as [_ HR].
  rewrite checkEdges_diags_In. split.
  - intros (x & n & Hx & Hn & [Hd|[Hd|([= <-] & Hr & Ho)]]).
    + apply predecessor_diags_In in Hd as ([=] & _).
    + apply successor_diags_In in Hd as ([=] & _).
    + exists n. rewrite <- HR. tauto.
  - intros (n & Hnd & Hn & Hp & Ho). exists nd, n.
    split; [assumption|]. split; [assumption|]. right. right.
    rewrite HR. tauto.
Qed.

(** Every entry is about a node of the node set. *)
Lemma validate_diags_node d : In d (validate_diags s) -> in_node_set s (diag_node d).
Proof.
  unfold validate_diags. rewrite in_app_iff, checkOperands_diags_In, checkEdges_diags_In.
  intros [[(nd & -> & Hnd & Hin)%known_diags_shape
          |(nd & n & Hnd & _ & [(-> & _)%operand_diags_In|(msg & -> & _)%arity_diags_In])]
         |(nd & n & Hnd & _ & [(-> & _)%predecessor_diags_In
                              |[(-> & _)%successor_diags_In|(-> & _)]])];
    try exact Hnd. split; assumption.
Qed.

End PassB_spec.

(** ** The validator only appends to its errors *)

Section Uniform.
Context `{Externals}.

Lemma uniform_ret {A} (a : A) : uniform (ret a).
Proof. intros s. unfold ret. simpl. now rewrite append_nil_r, set_errors_id. Qed.

Lemma uniform_fault {A} : uniform (@fault A).
Proof. intros s. reflexivity. Qed.

Lemma uniform_out_of_fuel {A} : uniform (@out_of_fuel A).
Proof. intros s. reflexivity. Qed.

Lemma uniform_append t : uniform (append t).
Proof. intros s. reflexivity. Qed.

Lemma uniform_deref p : uniform (deref p).
Proof.
  intros s. unfold deref. simpl. destruct (N.eqb p nullptr); [reflexivity|].
  destruct (mem s !! p); simpl; [|reflexivity]. now rewrite append_nil_r, set_errors_id.
Qed.

Lemma uniform_getRoot : uniform getRoot.
Proof. intros s. unfold getRoot. simpl. now rewrite append_nil_r, set_errors_id. Qed.

Lemma uniform_getNodes : uniform getNodes.
Proof. intros s. unfold getNodes. simpl. now rewrite append_nil_r, set_errors_id. Qed.

Lemma uniform_bind {A B} (m : M A) (f : A -> M B) :
  uniform m -> (forall a, uniform (f a)) -> uniform (bind m f).
Proof.
  intros Hm Hf s. unfold bind.
  rewrite (Hm s). pose proof (Hm (set_errors s EmptyString)) as Hm0.
  change (set_errors (set_errors s EmptyString) EmptyString)
    with (set_errors s EmptyString) in Hm0.
  destruct (m (set_errors s EmptyString)) as [[a s0]| |]; simpl; [|reflexivity|reflexivity].
  simpl in Hm0. injection Hm0 as Hs0.
  remember (errors s0) as t eqn:Ht. change (s0 = set_errors s t) in Hs0. subst s0.
  rewrite (Hf a (set_errors s (errors s +:+ t))), (Hf a (set_errors s t)).
  change (f a (set_errors (set_errors s (errors s +:+ t)) EmptyString))
    with (f a (set_errors s EmptyString)).
  change (f a (set_errors (set_errors s t) EmptyString))
    with (f a (set_errors s EmptyString)).
  destruct (f a (set_errors s EmptyString)) as [[b s1]| |]; simpl; [|reflexivity|reflexivity].
  unfold set_errors. simpl. now rewrite append_assoc.
Qed.

Lemma uniform_foldM {A B} (body : B -> A -> M B) (l : list A) :
  (forall b x, uniform (body b x)) -> forall b, uniform (foldM body l b).
Proof.
  intros Hbody. induction l as [|x l IH]; intros b; simpl.
  - apply uniform_ret.
  - apply uniform_bind; [apply Hbody|apply IH].
Qed.

Ltac uniform_tac :=
  repeat first
    [ assumption
    | apply uniform_ret | apply uniform_fault | apply uniform_out_of_fuel
    | apply uniform_append | apply uniform_deref
    | apply uniform_getRoot | apply uniform_getNodes
    | apply uniform_bind; [|intros]
    | apply uniform_foldM; intros
    | match goal with
      | |- uniform (match ?x with _ => _ end) => destruct x
      end ].

Lemma uniform_dumpNode nd : uniform (dumpNode nd).
Proof.
  unfold dumpNode, getType, getID, getOperandsNum, getOperand. uniform_tac.
Qed.

Lemma uniform_report d : uniform (report d).
Proof.
  pose proof uniform_dumpNode.
  destruct d; simpl;
    unfold reportInvalOperands, reportInvalEdges, reportInvalNode,
      reportUnreachableNode, append_user_err;
    uniform_tac; auto.
Qed.

Lemma uniform_checkOperands : uniform checkOperands.
Proof.
  pose proof (fun nd msg => uniform_report (InvalOperands nd msg)) as HO.
  pose proof (fun nd msg => uniform_report (InvalNode nd msg)) as HN.
  simpl in HO, HN.
  unfold checkOperands, checkOperands_known, checkOperands_node, checkOperands_operand,
    checkOperands_arity, hasDuplicateOperand, getOperands, getOperandsNum, getType.
  uniform_tac; auto.
Qed.

Lemma uniform_reachableNodes_while fuel :
  forall R T, uniform (reachableNodes_while fuel R T).
Proof.
  induction fuel as [|fuel IH]; intros R [|t T]; cbn [reachableNodes_while];
    try solve [uniform_tac].
  apply uniform_bind.
  - unfold reachableNodes_cur, reachableNodes_succ, getSuccessors. uniform_tac.
  - intros [R' T']. apply IH.
Qed.

Lemma uniform_reachableNodes nd : uniform (reachableNodes nd).
Proof. intros s. unfold reachableNodes. apply uniform_reachableNodes_while. Qed.

Lemma uniform_checkEdges : uniform checkEdges.
Proof.
  pose proof (fun nd msg => uniform_report (InvalEdges nd msg)) as HE.
  pose proof (fun nd => uniform_report (UnreachableNode nd)) as HU.
  pose proof uniform_reachableNodes as HR.
  simpl in HE, HU.
  unfold checkEdges, checkEdges_node, checkEdges_reachable, canBeOutsideGraph,
    isInPredecessors, getPredecessors, getSuccessors, predecessorsNum, getType.
  uniform_tac; auto.
Qed.

Lemma uniform_validate : uniform validate.
Proof.
  pose proof uniform_checkOperands. pose proof uniform_checkEdges.
  unfold validate. cbv zeta. uniform_tac; auto.
Qed.

End Uniform.

(** ** Valid graphs, null entries *)

Lemma nodup_succ l : forall acc : gset N * list ptr,
  NoDup acc.2 -> (forall x, In x acc.2 -> x ∈ acc.1) ->
  NoDup (fold_left expand_succ l acc).2
  /\ forall x, In x (fold_left expand_succ l acc).2 -> x ∈ (fold_left expand_succ l acc).1.
Proof.
  induction l as [|c l IH]; intros acc Hnd Hin; simpl; [now split|].
  apply IH; unfold expand_succ; destruct (bool_decide (c ∈ acc.1)) eqn:Hc;
    try assumption; apply bool_decide_eq_false in Hc; simpl.
  - apply NoDup_app. split; [assumption|]. split; [|apply NoDup_singleton].
    intros x Hx%list_elem_of_In Hx'%list_elem_of_In. destruct Hx' as [<-|[]].
    apply Hc, Hin, Hx.
  - intros x [Hx|[<-|[]]]%in_app_iff;
      [|apply elem_of_union; left; now apply elem_of_singleton].
    apply elem_of_union. right. now apply Hin.
Qed.

Lemma nodup_level m T : forall acc : gset N * list ptr,
  NoDup acc.2 -> (forall x, In x acc.2 -> x ∈ acc.1) ->
  NoDup (fold_left (expand_cur m) T acc).2
  /\ forall x, In x (fold_left (expand_cur m) T acc).2
               -> x ∈ (fold_left (expand_cur m) T acc).1.
Proof.
  induction T as [|y T IH]; intros acc Hnd Hin; simpl; [now split|].
  unfold expand_cur at 2 4 6. destruct (m !! y) as [n|].
  - destruct (nodup_succ (successors n) acc Hnd Hin). now apply IH.
  - now apply IH.
Qed.

Lemma known_diags_filter l : forall K : gset N,
  known_diags K (List.filter non_null l) = known_diags K l.
Proof.
  induction l as [|y l IH]; intros K; simpl; [reflexivity|].
  unfold non_null at 1. destruct (N.eqb y nullptr) eqn:Hy; simpl; [apply IH|].
  rewrite Hy. destruct (bool_decide (y ∈ K)); now rewrite IH.
Qed.

Lemma known_set_filter l : forall K : gset N,
  known_set K (List.filter non_null l) = known_set K l.
Proof.
  induction l as [|y l IH]; intros K; simpl; [reflexivity|].
  unfold non_null at 1. destruct (N.eqb y nullptr) eqn:Hy; simpl; [apply IH|].
  rewrite Hy. destruct (bool_decide (y ∈ K)); now rewrite IH.
Qed.

Lemma flat_map_filter {B} (g : ptr -> list B) (l : list ptr) :
  g nullptr = [] -> flat_map g (List.filter non_null l) = flat_map g l.
Proof.
  intros Hg. induction l as [|y l IH]; simpl; [reflexivity|].
  unfold non_null at 1. destruct (N.eqb y nullptr) eqn:Hy; simpl.
  - apply N.eqb_eq in Hy. subst y. now rewrite Hg.
  - now rewrite IH.
Qed.

Section Claims.
Context `{Externals}.

Lemma mem_safe_without_null s : mem_safe s = true -> mem_safe (without_null s) = true.
Proof.
  unfold mem_safe, without_null. simpl.
  intros [[Hr Hn]%andb_prop Hm]%andb_prop.
  rewrite Hr, Hm, andb_true_r. simpl.
  rewrite forallb_forall in *. intros x [Hx _]%filter_In. now apply Hn.
Qed.

Lemma validate_diags_without_null s :
  mem_safe s = true -> validate_diags (without_null s) = validate_diags s.
Proof.
  intros Hs. unfold validate_diags, checkOperands_diags, checkEdges_diags.
  assert (HR : reachable_from_root (without_null s) = reachable_from_root s).
  { apply set_eq. intros x.
    rewrite (proj2 (reachable_from_root_spec _ (mem_safe_without_null s Hs))).
    rewrite (proj2 (reachable_from_root_spec _ Hs)). reflexivity. }
  rewrite HR. simpl. fold non_null.
  rewrite known_diags_filter, known_set_filter.
  rewrite !flat_map_filter by reflexivity. reflexivity.
Qed.

Lemma emits_here {A} (s : state) (m : M A) a V :
  emits s m a V -> m s = Ok (a, logged s V).
Proof. apply runs_here. Qed.

Lemma render_set_errors s e V : render (set_errors s e) V = render s V.
Proof.
  induction V as [|d V IH]; simpl; [reflexivity|]. rewrite IH. reflexivity.
Qed.

Lemma logged_app s V W : logged (logged s V) W = logged s (V ++ W).
Proof.
  unfold logged. rewrite render_set_errors, render_app. simpl.
  unfold set_errors. simpl. now rewrite append_assoc.
Qed.

Lemma validate_diags_nil (s : state) :
  mem_safe s = true -> valid_graph s -> validate_diags s = [].
Proof.
  intros Hs (Huniq & Hops & Har & Hsym & Hconn).
  destruct (validate_diags s) as [|d V] eqn:HV; [reflexivity|exfalso].
  assert (Hd : In d (validate_diags s)) by (rewrite HV; now left). clear HV.
  unfold validate_diags in Hd.
  rewrite in_app_iff, checkOperands_diags_In, checkEdges_diags_In in Hd.
  destruct Hd as [[Hd|(nd & n & Hnd & Hn & [Hd|Hd])]
                 |(nd & n & Hnd & Hn & [Hd|[Hd|(-> & HR & Ho)]])].
  - destruct (known_diags_shape _ _ _ Hd) as (nd & -> & Hnd & _).
    apply (count_occ_In diag_eq_dec) in Hd.
    rewrite known_diags_count in Hd by assumption.
    rewrite (bool_decide_eq_false_2 (nd ∈ (∅ : gset N))) in Hd by set_solver.
    specialize (Huniq nd Hnd). lia.
  - apply operand_diags_In in Hd as (_ & op & Hop & [Hsen Hin]%unknown_operand_spec).
    destruct (Hops nd n op Hnd Hn Hop); contradiction.
  - apply arity_diags_In in Hd as (msg & _ & Hv).
    apply (proj1 (arity_violation_contract (type n) (operands n))); [eauto|].
    now apply (Har nd n).
  - apply predecessor_diags_In in Hd as (_ & Hp & Hr & Ho).
    destruct (Hconn nd n Hnd Hn Hr Ho). contradiction.
  - apply successor_diags_In in Hd as (_ & b & nb & Hb & Hnb & Hp).
    apply Hp. eapply Hsym; eassumption.
  - apply HR. apply (reachable_from_root_spec s Hs).
    destruct (N.eq_dec nd (root (PS s))) as [->|Hr]; [constructor|].
    now apply (Hconn nd n).
Qed.

Lemma validate_flagged (s : state) (d : diag) :
  mem_safe s = true -> In d (validate_diags s) ->
  validate s = Ok (true, logged s (validate_diags s)).
Proof.
  intros Hs Hd. rewrite (emits_here s _ _ _ (emits_validate s Hs)).
  destruct (validate_diags s); [destruct Hd|reflexivity].
Qed.

(** [mem_safe] cannot be dropped: a subgraph without a root is outside
    what the validator handles. *)
Lemma validate_without_root (s : state) :
  nodes (PS s) = [] -> root (PS s) = nullptr -> validate s = Fault.
Proof.
  intros Hn Hr. unfold validate, checkOperands, checkEdges, bind, getNodes, getRoot.
  repeat (rewrite Hn; cbn [foldM ret]). rewrite Hr. now rewrite reachableNodes_nullptr.
Qed.

End Claims.

(** ** The verdict and the text *)

Lemma nonempty_app (a b : string) : nonempty (a +:+ b) = nonempty a || nonempty b.
Proof. now destruct a. Qed.

Lemma nonempty_spec (t : string) : nonempty t = true <-> t <> EmptyString.
Proof. destruct t; simpl; split; congruence. Qed.

Section Verdict.
Context `{Externals}.

Lemma quiet_ret {A} (a : A) : quiet (ret a).
Proof. intros s a' s' [= _ <-]. reflexivity. Qed.

Lemma quiet_bind {A B} (m : M A) (f : A -> M B) :
  quiet m -> (forall a, quiet (f a)) -> quiet (bind m f).
Proof.
  intros Hm Hf s b s' Hrun. unfold bind in Hrun.
  destruct (m s) as [[a s1]| |] eqn:H1; try discriminate.
  apply Hm in H1 as ->. now apply Hf in Hrun.
Qed.

Lemma quiet_deref p : quiet (deref p).
Proof.
  intros s a s'. unfold deref. destruct (N.eqb p nullptr); [discriminate|].
  destruct (mem s !! p); [|discriminate]. now intros [= _ <-].
Qed.

Lemma quiet_field {A} (f : PSNode -> A) p : quiet (let* n := deref p in ret (f n)).
Proof. apply quiet_bind; [apply quiet_deref|intros n; apply quiet_ret]. Qed.

Lemma quiet_getRoot : quiet getRoot.
Proof. intros s a s' [= _ <-]. reflexivity. Qed.

Lemma quiet_getNodes : quiet getNodes.
Proof. intros s a s' [= _ <-]. reflexivity. Qed.

Lemma quiet_reachableNodes nd : quiet (reachableNodes nd).
Proof.
  intros s R s' Hrun.
  destruct (reachableNodes_while_terminates s (S (size (mem s))) {[nd]} [nd])
    as [_ Hok].
  { intros x [<-|[]]. now apply elem_of_singleton. }
  { apply unexpanded_start. }
  now destruct (Hok R s' Hrun).
Qed.

Lemma tracks_ret {A} (flag : A -> bool) (i : bool) (a : A) :
  flag a = i -> tracks flag i (ret a).
Proof.
  intros Ha s a' s' [= <- <-]. exists EmptyString.
  rewrite append_nil_r, set_errors_id, Ha. now destruct i.
Qed.

Lemma tracks_quiet_bind {A B} (flag : B -> bool) (i : bool) (m : M A) (f : A -> M B) :
  quiet m -> (forall a, tracks flag i (f a)) -> tracks flag i (bind m f).
Proof.
  intros Hm Hf s b s' Hrun. unfold bind in Hrun.
  destruct (m s) as [[a s1]| |] eqn:H1; try discriminate.
  apply Hm in H1 as ->. now apply Hf in Hrun.
Qed.

Lemma tracks_bind {A B} (flag1 : A -> bool) (flag2 : B -> bool) (i : bool)
    (m : M A) (f : A -> M B) :
  tracks flag1 i m -> (forall a, tracks flag2 (flag1 a) (f a)) ->
  tracks flag2 i (bind m f).
Proof.
  intros Hm Hf s b s' Hrun. unfold bind in Hrun.
  destruct (m s) as [[a s1]| |] eqn:H1; try discriminate.
  apply Hm in H1 as (t1 & -> & Ha). apply Hf in Hrun as (t2 & -> & Hb).
  exists (t1 +:+ t2). split.
  - unfold set_errors. simpl. now rewrite append_assoc.
  - now rewrite Hb, Ha, nonempty_app, orb_assoc.
Qed.

Lemma tracks_foldM {A B} (flag : B -> bool) (body : B -> A -> M B) (l : list A) :
  (forall b x, tracks flag (flag b) (body b x)) ->
  forall b, tracks flag (flag b) (foldM body l b).
Proof.
  intros Hbody. induction l as [|x l IH]; intros b; simpl.
  - now apply tracks_ret.
  - apply (tracks_bind flag flag); [apply Hbody|apply IH].
Qed.

(** A report call that returns has returned [true] and appended a text
    that is not empty. *)
Lemma report_returns d s r s' :
  report d s = Ok (r, s') ->
  r = true /\ exists t, s' = set_errors s (errors s +:+ t) /\ nonempty t = true.
Proof.
  intros Hrun.
  assert (Hshape : exists c u,
            nonempty c = true /\
            report d = (append c ;; dumpNode (diag_node d) ;; append_user_err u ;; ret true)).
  { destruct d as [nd msg|nd msg|nd msg|nd]; simpl.
    - exists ("Invalid operands:" +:+ nl), msg. now split.
    - exists ("Invalid number of edges:" +:+ nl), msg. now split.
    - exists ("Invalid node:" +:+ nl), msg. now split.
    - exists ("Unreachable node:" +:+ nl), EmptyString. now split. }
  destruct Hshape as (c & u & Hc & Heq). rewrite Heq in Hrun. clear Heq.
  unfold bind, append in Hrun.
  pose proof (uniform_dumpNode (diag_node d) (set_errors s (errors s +:+ c))) as Hd.
  destruct (dumpNode (diag_node d) (set_errors s (errors s +:+ c))) as [[[] s1]| |];
    try discriminate.
  destruct (dumpNode (diag_node d) (set_errors (set_errors s (errors s +:+ c)) EmptyString))
    as [[[] s0]| |]; try discriminate.
  simpl in Hd. injection Hd as ->.
  assert (Hu : exists t, forall s2, append_user_err u s2 = Ok (tt, set_errors s2 (errors s2 +:+ t))).
  { destruct u; simpl.
    - exists EmptyString. intros s2. unfold ret. now rewrite append_nil_r, set_errors_id.
    - eexists. intros s2. reflexivity. }
  destruct Hu as (t & Hu). rewrite Hu in Hrun. injection Hrun as <- <-.
  split; [reflexivity|]. exists (c +:+ errors s0 +:+ t). split.
  - unfold set_errors. simpl. now rewrite !append_assoc.
  - rewrite nonempty_app, Hc. reflexivity.
Qed.

Lemma tracks_report {A} (flag : A -> bool) (i : bool) (d : diag) (k : bool -> A) :
  (forall r, flag (k r) = i || r) ->
  tracks flag i (let* r := report d in ret (k r)).
Proof.
  intros Hk s a s' Hrun. unfold bind in Hrun.
  destruct (report d s) as [[r s1]| |] eqn:Hr; try discriminate.
  injection Hrun as <- <-.
  apply report_returns in Hr as (-> & t & -> & Ht).
  exists t. split; [reflexivity|]. now rewrite Hk, Ht.
Qed.

End Verdict.

Section Passes.
Context `{Externals}.

Ltac quiet_tac :=
  repeat first
    [ apply quiet_ret | apply quiet_deref | apply quiet_getRoot | apply quiet_getNodes
    | apply quiet_reachableNodes
    | apply quiet_bind; [|intros] ].

Ltac tracks_step :=
  first
    [ apply tracks_ret; reflexivity
    | match goal with
      | |- tracks _ ?i (bind (reportInvalOperands ?nd ?msg) _) =>
          apply (tracks_report _ i (InvalOperands nd msg)); intros; reflexivity
      | |- tracks _ ?i (bind (reportInvalEdges ?nd ?msg) _) =>
          apply (tracks_report _ i (InvalEdges nd msg)); intros; reflexivity
      | |- tracks _ ?i (bind (reportInvalNode ?nd ?msg) _) =>
          apply (tracks_report _ i (InvalNode nd msg)); intros; reflexivity
      | |- tracks _ ?i (bind (reportUnreachableNode ?nd) _) =>
          apply (tracks_report _ i (UnreachableNode nd)); intros; reflexivity
      | |- tracks _ _ (if ?c then _ else _) => destruct c
      | |- tracks _ _ (match ?x with _ => _ end) => destruct x
      end
    | apply tracks_quiet_bind; [solve [quiet_tac]|intros] ].

Lemma tracks_checkOperands_known acc nd :
  tracks fst (fst acc) (checkOperands_known acc nd).
Proof.
  destruct acc as [invalid known]. unfold checkOperands_known. simpl.
  repeat tracks_step.
Qed.

Lemma tracks_checkOperands_operand known nd invalid op :
  tracks itself invalid (checkOperands_operand known nd invalid op).
Proof. unfold checkOperands_operand. repeat tracks_step. Qed.

Lemma tracks_checkOperands_arity nd invalid :
  tracks itself invalid (checkOperands_arity nd invalid).
Proof.
  unfold checkOperands_arity, hasDuplicateOperand, getType, getOperandsNum, getOperands.
  repeat tracks_step.
Qed.

Lemma tracks_checkOperands_node known invalid nd :
  tracks itself invalid (checkOperands_node known invalid nd).
Proof.
  unfold checkOperands_node, getOperands.
  destruct (N.eqb nd nullptr); [now apply tracks_ret|].
  apply tracks_quiet_bind; [quiet_tac|intros ops].
  apply (tracks_bind itself itself).
  - apply (tracks_foldM itself). intros b x. apply tracks_checkOperands_operand.
  - intros b. apply tracks_checkOperands_arity.
Qed.

Lemma tracks_checkOperands : tracks itself false checkOperands.
Proof.
  unfold checkOperands.
  apply tracks_quiet_bind; [quiet_tac|intros l].
  apply (tracks_bind fst itself).
  - exact (tracks_foldM fst _ l tracks_checkOperands_known (false, ∅)).
  - intros [invalid known]. apply (tracks_foldM itself). intros b x.
    apply tracks_checkOperands_node.
Qed.

Lemma tracks_checkEdges_node invalid nd : tracks itself invalid (checkEdges_node invalid nd).
Proof.
  unfold checkEdges_node, predecessorsNum, getSuccessors.
  destruct (N.eqb nd nullptr); [now apply tracks_ret|].
  apply tracks_quiet_bind; [quiet_tac|intros np].
  apply tracks_quiet_bind; [quiet_tac|intros r].
  apply (tracks_bind itself itself).
  - unfold canBeOutsideGraph, getType. repeat tracks_step.
  - intros b. apply tracks_quiet_bind; [quiet_tac|intros succs].
    apply (tracks_foldM itself). intros b' succ.
    unfold isInPredecessors, getPredecessors. repeat tracks_step.
Qed.

Lemma tracks_checkEdges_reachable R invalid nd :
  tracks itself invalid (checkEdges_reachable R invalid nd).
Proof.
  unfold checkEdges_reachable, canBeOutsideGraph, getType. repeat tracks_step.
Qed.

Lemma tracks_checkEdges : tracks itself false checkEdges.
Proof.
  unfold checkEdges.
  apply tracks_quiet_bind; [quiet_tac|intros l].
  apply (tracks_bind itself itself).
  - apply (tracks_foldM itself). intros b x. apply tracks_checkEdges_node.
  - intros b. apply tracks_quiet_bind; [quiet_tac|intros r].
    apply tracks_quiet_bind; [quiet_tac|intros R].
    apply (tracks_foldM itself). intros b' x. apply tracks_checkEdges_reachable.
Qed.

(** [validate] is its two passes in sequence. *)
Lemma validate_sequence s b s' :
  validate s = Ok (b, s') <->
  exists a s1 b', checkOperands s = Ok (a, s1) /\ checkEdges s1 = Ok (b', s')
                  /\ b = a || b'.
Proof.
  unfold validate, bind, ret. split.
  - destruct (checkOperands s) as [[a s1]| |]; try discriminate.
    destruct (checkEdges s1) as [[b' s2]| |] eqn:HB; try discriminate.
    intros [= <- <-]. exists a, s1, b'. now rewrite HB.
  - intros (a & s1 & b' & -> & -> & ->). reflexivity.
Qed.

Lemma tracks_validate : tracks itself false validate.
Proof.
  intros s b s' (a & s1 & b' & HA & HB & ->)%validate_sequence.
  apply tracks_checkOperands in HA as (t1 & -> & Ha).
  apply tracks_checkEdges in HB as (t2 & -> & Hb).
  exists (t1 +:+ t2). split.
  - unfold set_errors. simpl. now rewrite append_assoc.
  - simpl in *. now rewrite Ha, Hb, nonempty_app.
Qed.

End Passes.

(** ** The bound of the traversal is the only one *)

Section FuelFree.
Context `{Externals}.

Lemma fuel_free_ret {A} (a : A) : fuel_free (ret a).
Proof. intros s. discriminate. Qed.

Lemma fuel_free_fault {A} : fuel_free (@fault A).
Proof. intros s. discriminate. Qed.

Lemma fuel_free_append t : fuel_free (append t).
Proof. intros s. discriminate. Qed.

Lemma fuel_free_deref p : fuel_free (deref p).
Proof.
  intros s. unfold deref. destruct (N.eqb p nullptr); [discriminate|].
  destruct (mem s !! p); discriminate.
Qed.

Lemma fuel_free_getRoot : fuel_free getRoot.
Proof. intros s. discriminate. Qed.

Lemma fuel_free_getNodes : fuel_free getNodes.
Proof. intros s. discriminate. Qed.

Lemma fuel_free_bind {A B} (m : M A) (f : A -> M B) :
  fuel_free m -> (forall a, fuel_free (f a)) -> fuel_free (bind m f).
Proof.
  intros Hm Hf s. unfold bind. specialize (Hm s).
  destruct (m s) as [[a s1]| |]; [apply Hf|discriminate|congruence].
Qed.

Lemma fuel_free_foldM {A B} (body : B -> A -> M B) (l : list A) :
  (forall b x, fuel_free (body b x)) -> forall b, fuel_free (foldM body l b).
Proof.
  intros Hbody. induction l as [|x l IH]; intros b; simpl.
  - apply fuel_free_ret.
  - apply fuel_free_bind; [apply Hbody|apply IH].
Qed.

Lemma fuel_free_reachableNodes nd : fuel_free (reachableNodes nd).
Proof.
  intros s.
  destruct (reachableNodes_while_terminates s (S (size (mem s))) {[nd]} [nd])
    as [Hno _]; [| |exact Hno].
  - intros x [<-|[]]. now apply elem_of_singleton.
  - apply unexpanded_start.
Qed.

Ltac fuel_free_tac :=
  repeat first
    [ assumption
    | apply fuel_free_ret | apply fuel_free_fault
    | apply fuel_free_append | apply fuel_free_deref
    | apply fuel_free_getRoot | apply fuel_free_getNodes
    | apply fuel_free_reachableNodes
    | apply fuel_free_bind; [|intros]
    | apply fuel_free_foldM; intros
    | match goal with
      | |- fuel_free (match ?x with _ => _ end) => destruct x
      end ].

Lemma fuel_free_dumpNode nd : fuel_free (dumpNode nd).
Proof.
  unfold dumpNode, getType, getID, getOperandsNum, getOperand. fuel_free_tac.
Qed.

Lemma fuel_free_report d : fuel_free (report d).
Proof.
  pose proof fuel_free_dumpNode.
  destruct d; simpl;
    unfold reportInvalOperands, reportInvalEdges, reportInvalNode,
      reportUnreachableNode, append_user_err;
    fuel_free_tac; auto.
Qed.

Lemma fuel_free_checkOperands_operand known nd invalid op :
  fuel_free (checkOperands_operand known nd invalid op).
Proof.
  pose proof (fun nd msg => fuel_free_report (InvalOperands nd msg)) as HO.
  simpl in HO. unfold checkOperands_operand. fuel_free_tac; auto.
Qed.

Lemma fuel_free_checkOperands_node known invalid nd :
  fuel_free (checkOperands_node known invalid nd).
Proof.
  pose proof (fun nd msg => fuel_free_report (InvalOperands nd msg)) as HO.
  simpl in HO.
  unfold checkOperands_node, checkOperands_operand,
    checkOperands_arity, hasDuplicateOperand, getOperands, getOperandsNum, getType.
  fuel_free_tac; auto.
Qed.

Lemma fuel_free_checkOperands_known acc nd : fuel_free (checkOperands_known acc nd).
Proof.
  pose proof (fun nd msg => fuel_free_report (InvalNode nd msg)) as HN.
  simpl in HN. destruct acc as [invalid known].
  unfold checkOperands_known. fuel_free_tac; auto.
Qed.

Lemma fuel_free_checkOperands : fuel_free checkOperands.
Proof.
  pose proof (fun nd msg => fuel_free_report (InvalOperands nd msg)) as HO.
  pose proof (fun nd msg => fuel_free_report (InvalNode nd msg)) as HN.
  simpl in HO, HN.
  unfold checkOperands, checkOperands_known, checkOperands_node, checkOperands_operand,
    checkOperands_arity, hasDuplicateOperand, getOperands, getOperandsNum, getType.
  fuel_free_tac; auto.
Qed.

Lemma fuel_free_checkEdges_nodes l b : fuel_free (foldM checkEdges_node l b).
Proof.
  pose proof (fun nd msg => fuel_free_report (InvalEdges nd msg)) as HE.
  simpl in HE.
  unfold checkEdges_node, canBeOutsideGraph,
    isInPredecessors, getPredecessors, getSuccessors, predecessorsNum, getType.
  fuel_free_tac; auto.
Qed.

Lemma fuel_free_checkEdges : fuel_free checkEdges.
Proof.
  pose proof (fun nd msg => fuel_free_report (InvalEdges nd msg)) as HE.
  pose proof (fun nd => fuel_free_report (UnreachableNode nd)) as HU.
  simpl in HE, HU.
  unfold checkEdges, checkEdges_node, checkEdges_reachable, canBeOutsideGraph,
    isInPredecessors, getPredecessors, getSuccessors, predecessorsNum, getType.
  fuel_free_tac; auto.
Qed.

Lemma fuel_free_validate : fuel_free validate.
Proof.
  pose proof fuel_free_checkOperands. pose proof fuel_free_checkEdges.
  unfold validate. cbv zeta. fuel_free_tac; auto.
Qed.

(** Without a root the second pass reaches the traversal, if it gets so
    far, and the traversal reads the root. *)
Lemma checkEdges_null_root s : root (PS s) = nullptr -> checkEdges s = Fault.
Proof.
  intros Hr. unfold checkEdges, bind, getNodes, getRoot.
  pose proof (fuel_free_checkEdges_nodes (nodes (PS s)) false s) as Hno.
  pose proof (tracks_foldM itself checkEdges_node (nodes (PS s))
                tracks_checkEdges_node false s) as Htr.
  destruct (foldM checkEdges_node (nodes (PS s)) false s) as [[b s1]| |];
    [|reflexivity|congruence].
  destruct (Htr b s1 eq_refl) as (t & -> & _). simpl. rewrite Hr.
  now rewrite reachableNodes_nullptr.
Qed.

Lemma validate_null_root s : root (PS s) = nullptr -> validate s = Fault.
Proof.
  intros Hr. unfold validate, bind.
  pose proof (fuel_free_checkOperands s) as Hno.
  pose proof (tracks_checkOperands s) as Htr.
  destruct (checkOperands s) as [[a s1]| |]; [|reflexivity|congruence].
  destruct (Htr a s1 eq_refl) as (t & -> & _).
  now rewrite checkEdges_null_root.
Qed.

End FuelFree.

(** * The properties of the specification *)

Section Theorems.
Context `{Externals}.

(** C1.  On a graph that satisfies the five invariants of section 3,
    [validate] returns [false] and [errors], empty before the call, is
    empty after it. *)
Theorem valid_graph_accepted (s : state) :
  mem_safe s = true -> valid_graph s -> errors s = EmptyString ->
  exists s', validate s = Ok (false, s') /\ errors s' = EmptyString.
Proof.
  intros Hs Hv He. exists s. split; [|assumption].
  rewrite (emits_here s _ _ _ (emits_validate s Hs)).
  rewrite (validate_diags_nil s Hs Hv). unfold logged. simpl.
  now rewrite append_nil_r, set_errors_id.
Qed.

(** C2.  Pass A enforces the arity table on every node of the node set:
    an "invalid operands" entry with an arity explanation is appended for
    a node exactly when the table calls for that explanation, and a node
    breaks its kind's contract exactly when such an entry is appended. *)
Theorem arity_table_enforced (s : state) :
  mem_safe s = true ->
  exists V, checkOperands s = Ok (flagged V, logged s V) /\
    forall nd n, in_node_set s nd -> mem s !! nd = Some n ->
      (forall msg, msg <> msg_unknown_operand ->
         (In (InvalOperands nd msg) V <-> arity_violation (type n) (operands n) msg)) /\
      (~ arity_contract (type n) (operands n) <->
         exists msg, msg <> msg_unknown_operand /\ In (InvalOperands nd msg) V).
Proof.
  intros Hs. exists (checkOperands_diags s).
  split; [apply emits_here, emits_checkOperands, Hs|].
  intros nd n Hnd Hn.
  assert (Hiff : forall msg, msg <> msg_unknown_operand ->
            (In (InvalOperands nd msg) (checkOperands_diags s)
             <-> arity_violation (type n) (operands n) msg)).
  { intros msg Hmsg. rewrite diags_arity by assumption. split.
    - intros (n' & _ & Hn' & Hv). congruence.
    - intros Hv. exists n. tauto. }
  split; [exact Hiff|].
  rewrite <- arity_violation_contract. split.
  - intros (msg & Hv). exists msg.
    pose proof (arity_violation_not_unknown _ _ _ Hv) as Hmsg.
    split; [assumption|]. now apply Hiff.
  - intros (msg & Hmsg & Hin). exists msg. now apply Hiff.
Qed.

(** X13.  On a graph whose followed pointers lead to nodes, Pass A
    appends an unknown-operand entry for a node of the node set exactly
    when one of its operands is neither a sentinel nor in the node set,
    and [validate] then returns [true]. *)
Theorem unknown_operand_reported (s : state) :
  mem_safe s = true ->
  exists V, checkOperands s = Ok (flagged V, logged s V) /\
    (forall nd, In (InvalOperands nd msg_unknown_operand) V <->
       exists n op, in_node_set s nd /\ mem s !! nd = Some n /\ In op (operands n)
                    /\ ~ is_sentinel op /\ ~ in_node_set s op) /\
    (forall nd, In (InvalOperands nd msg_unknown_operand) V ->
       exists s', validate s = Ok (true, s')).
Proof.
  intros Hs. exists (checkOperands_diags s).
  split; [apply emits_here, emits_checkOperands, Hs|].
  split; [apply diags_unknown_operand|].
  intros nd Hin. eexists. eapply validate_flagged; [exact Hs|].
  unfold validate_diags. apply in_app_iff. left. exact Hin.
Qed.

(** C4.  Pass B appends an edge-symmetry entry for a node A of the node
    set exactly when some successor B of A does not list A among its
    predecessors, and [validate] then returns [true]. *)
Theorem asymmetric_edge_reported (s : state) :
  mem_safe s = true ->
  exists V, checkEdges s = Ok (flagged V, logged s V) /\
    (forall a, In (InvalEdges a msg_not_predecessor) V <->
       exists na b nb, in_node_set s a /\ mem s !! a = Some na /\ In b (successors na)
                       /\ mem s !! b = Some nb /\ ~ In a (predecessors nb)) /\
    (forall a, In (InvalEdges a msg_not_predecessor) V ->
       exists s', validate s = Ok (true, s')).
Proof.
  intros Hs. exists (checkEdges_diags s).
  split; [apply emits_here, emits_checkEdges, Hs|].
  split; [apply diags_not_predecessor|].
  intros nd Hin. eexists. eapply validate_flagged; [exact Hs|].
  unfold validate_diags. apply in_app_iff. right. exact Hin.
Qed.

(** C5.  Pass B appends a no-predecessor entry exactly for the nodes of
    the node set that have no predecessor, are not the root and are of no
    exempt kind, and an unreachable-node entry exactly for the nodes of
    the node set of no exempt kind without a path from the root. *)
Theorem connectivity_enforced (s : state) :
  mem_safe s = true ->
  exists V, checkEdges s = Ok (flagged V, logged s V) /\
    (forall nd, In (InvalEdges nd msg_no_predecessors) V <->
       exists n, in_node_set s nd /\ mem s !! nd = Some n /\ predecessors n = []
                 /\ nd <> root (PS s) /\ ~ may_exist_outside (type n)) /\
    (forall nd, In (UnreachableNode nd) V <->
       exists n, in_node_set s nd /\ mem s !! nd = Some n
                 /\ ~ path (mem s) (root (PS s)) nd /\ ~ may_exist_outside (type n)).
Proof.
  intros Hs. exists (checkEdges_diags s).
  split; [apply emits_here, emits_checkEdges, Hs|].
  split; [apply diags_no_predecessors|]. intros nd. now apply diags_unreachable.
Qed.

(** C6.  Pass A appends an invalid-node entry for every further
    occurrence of a node in the collection, and goes on: the
    unknown-operand and arity entries are appended all the same. *)
Theorem duplicate_nodes_reported (s : state) :
  mem_safe s = true ->
  exists V, checkOperands s = Ok (flagged V, logged s V) /\
    (forall nd, nd <> nullptr ->
       count_occ diag_eq_dec V (InvalNode nd msg_multiple)
       = (count_occ N.eq_dec (nodes (PS s)) nd - 1)%nat) /\
    (forall nd, In (InvalOperands nd msg_unknown_operand) V <->
       exists n op, in_node_set s nd /\ mem s !! nd = Some n /\ In op (operands n)
                    /\ ~ is_sentinel op /\ ~ in_node_set s op) /\
    (forall nd msg, msg <> msg_unknown_operand ->
       (In (InvalOperands nd msg) V <->
        exists n, in_node_set s nd /\ mem s !! nd = Some n
                  /\ arity_violation (type n) (operands n) msg)).
Proof.
  intros Hs. exists (checkOperands_diags s).
  split; [apply emits_here, emits_checkOperands, Hs|].
  split; [apply diags_multiple_count|].
  split; [apply diags_unknown_operand|apply diags_arity].
Qed.

(** C7.  [validate] runs [checkOperands] and then, whatever that found
    and on the state it left, [checkEdges], and returns the disjunction
    of their results.  Whenever it returns it has only appended to
    [errors], and it has returned [true] exactly when it appended
    something.  It returns on every graph whose followed pointers lead to
    nodes, whatever invariants the graph breaks, having appended the
    entries of the first pass and then those of the second.  It checks
    none of the pointers it follows: on a subgraph without a root the
    call is undefined. *)
Theorem validate_runs_both_passes (s : state) :
  (forall b s', validate s = Ok (b, s') <->
     exists a s1 b', checkOperands s = Ok (a, s1) /\ checkEdges s1 = Ok (b', s')
                     /\ b = a || b') /\
  (forall b s', validate s = Ok (b, s') ->
     exists t, s' = set_errors s (errors s +:+ t)
               /\ (b = true <-> t <> EmptyString)
               /\ (b = true <-> errors s' <> errors s)) /\
  (mem_safe s = true ->
   exists VA VB,
     checkOperands s = Ok (flagged VA, logged s VA) /\
     checkEdges (logged s VA) = Ok (flagged VB, logged s (VA ++ VB)) /\
     validate s = Ok (flagged VA || flagged VB, logged s (VA ++ VB)) /\
     (flagged VA || flagged VB = true <-> VA ++ VB <> []) /\
     (flagged VA || flagged VB = true <-> errors (logged s (VA ++ VB)) <> errors s)) /\
  (root (PS s) = nullptr -> validate s = Fault).
Proof.
  split; [intros b s'; apply validate_sequence|].
  split.
  { intros b s' Hrun. apply tracks_validate in Hrun as (t & -> & Hb).
    exists t. split; [reflexivity|]. simpl in Hb. rewrite Hb, nonempty_spec.
    split; [reflexivity|]. simpl. split.
    - intros Hne Heq. now apply append_eq_self in Heq.
    - intros Hne ->. apply Hne. apply append_nil_r. }
  split; [|apply validate_null_root].
  intros Hs. exists (checkOperands_diags s), (checkEdges_diags s).
  split; [apply emits_here, emits_checkOperands, Hs|].
  split.
  { pose proof (emits_checkEdges s Hs (errors (logged s (checkOperands_diags s)))) as He.
    rewrite <- logged_app. unfold logged in *. rewrite render_set_errors. exact He. }
  split.
  { rewrite <- flagged_app. apply emits_here, emits_validate, Hs. }
  rewrite <- flagged_app. fold (validate_diags s).
  assert (Hfl : flagged (validate_diags s) = true <-> validate_diags s <> []).
  { destruct (validate_diags s); simpl; split; congruence. }
  split; [exact Hfl|]. rewrite Hfl. unfold logged. simpl. split.
  - intros Hne Heq. apply append_eq_self in Heq. revert Heq.
    apply render_nonempty; [assumption|].
    intros d Hd. apply validate_diags_node in Hd as [Hnd Hin].
    now apply mem_safe_printable.
  - intros Hne HV. apply Hne. rewrite HV. simpl. apply append_nil_r.
Qed.

(** C8.  A call of [validate] leaves the heap and the subgraph as they
    were and only appends to [errors]; a second call returns the same
    result, appends the same text and again leaves the graph alone. *)
Theorem validate_leaves_graph_untouched (s : state) (b : bool) (s' : state) :
  validate s = Ok (b, s') ->
  mem s' = mem s /\ PS s' = PS s /\
  exists t, errors s' = errors s +:+ t /\
            validate s' = Ok (b, set_errors s' (errors s' +:+ t)).
Proof.
  intros Hrun. rewrite (uniform_validate s) in Hrun.
  destruct (validate (set_errors s EmptyString)) as [[b0 s0]| |] eqn:H0;
    simpl in Hrun; try discriminate.
  injection Hrun as <- <-. split; [reflexivity|]. split; [reflexivity|].
  exists (errors s0). split; [reflexivity|].
  rewrite (uniform_validate (set_errors s (errors s +:+ errors s0))).
  change (set_errors (set_errors s (errors s +:+ errors s0)) EmptyString)
    with (set_errors s EmptyString).
  rewrite H0. reflexivity.
Qed.

(** C9.  [reachableNodes] never exhausts the bound of its loop; its
    result contains the start node; on a well-formed heap it returns the
    set of the nodes that a path of successor edges reaches, cycles or
    not; and the work list a round leaves has no duplicates and holds
    exactly the nodes the round added to the set, so that no node is
    inserted or expanded twice. *)
Theorem reachableNodes_terminates (s : state) (nd : ptr) :
  reachableNodes nd s <> OutOfFuel /\
  (forall R s', reachableNodes nd s = Ok (R, s') -> s' = s /\ nd ∈ R) /\
  (mem_safe s = true -> allocated (mem s) nd = true ->
   exists R, reachableNodes nd s = Ok (R, s)
             /\ forall x, x ∈ R <-> path (mem s) nd x) /\
  (forall R T acc s', foldM reachableNodes_cur T (R, []) s = Ok (acc, s') ->
     NoDup acc.2 /\ forall x, In x acc.2 <-> x ∈ acc.1 /\ x ∉ R).
Proof.
  destruct (reachableNodes_while_terminates s (S (size (mem s))) {[nd]} [nd])
    as [Hno Hok].
  { intros x [<-|[]]. now apply elem_of_singleton. }
  { apply unexpanded_start. }
  split; [exact Hno|]. split; [|split].
  - intros R s' Hrun. destruct (Hok R s' Hrun) as [-> Hsub].
    split; [reflexivity|]. apply Hsub. now apply elem_of_singleton.
  - apply reachableNodes_ok.
  - intros R T acc s' Hrun. rewrite round_eq in Hrun.
    destruct (forallb (allocated (mem s)) T); [|discriminate].
    injection Hrun as <- <-. split.
    + apply nodup_level; simpl; [constructor|tauto].
    + destruct (fold_left (expand_cur (mem s)) T (R, [])) as [R' T'] eqn:Hfold.
      apply (round_fresh _ _ _ _ _ Hfold).
Qed.

(** C10.  Null entries of the collection are skipped: no entry is about
    a null pointer, and [validate] returns the same result and appends
    the same entries as on the collection without its null entries. *)
Theorem null_entries_skipped (s : state) :
  mem_safe s = true ->
  exists V, validate s = Ok (flagged V, logged s V) /\
    (forall d, In d V -> diag_node d <> nullptr) /\
    validate (without_null s) = Ok (flagged V, logged (without_null s) V) /\
    errors (logged (without_null s) V) = errors (logged s V).
Proof.
  intros Hs. exists (validate_diags s).
  split; [apply emits_here, emits_validate, Hs|].
  split; [intros d Hd; now apply (validate_diags_node s d)|].
  split.
  - rewrite <- (validate_diags_without_null s Hs).
    apply emits_here, emits_validate, mem_safe_without_null, Hs.
  - unfold logged, without_null. simpl. now rewrite render_retarget.
Qed.

End Theorems.

(** ** Pointers that lead nowhere *)

(** C3.  An operand that is neither a sentinel nor in the node set is to
    be reported as unknown or dangling, and [validate] is to return
    [true].  Where that operand is a pointer that leads to no node the
    code does not get there.  Node 31 of [ex_operand op] is registered and
    has the one operand [op], which is no sentinel and no registered node,
    for the dead address 99 as for [nullptr].  The test of [checkOperands]
    compares pointers only and calls [reportInvalOperands], whose
    [dumpNode] reads the id and the kind of every operand of the node:
    neither [checkOperands] nor [validate] returns, no entry is completed
    and no [true] comes back. *)
Theorem dangling_operand_unreported :
  (in_node_set (ex_operand 99) 31
   /\ mem (ex_operand 99) !! 31 = Some (mkPSNode 2 LOAD [99] [30] [])
   /\ ~ @is_sentinel ex_externals 99 /\ ~ in_node_set (ex_operand 99) 99
   /\ @checkOperands ex_externals (ex_operand 99) = Fault
   /\ @validate ex_externals (ex_operand 99) = Fault)
  /\ (in_node_set (ex_operand nullptr) 31
      /\ mem (ex_operand nullptr) !! 31 = Some (mkPSNode 2 LOAD [nullptr] [30] [])
      /\ ~ @is_sentinel ex_externals nullptr /\ ~ in_node_set (ex_operand nullptr) nullptr
      /\ @checkOperands ex_externals (ex_operand nullptr) = Fault
      /\ @validate ex_externals (ex_operand nullptr) = Fault).
Proof.
  split.
  - split; [split; [discriminate|simpl; tauto]|]. split; [reflexivity|].
    split; [intros [Hs|[Hs|Hs]]; discriminate|].
    split; [intros [_ [Hs|[Hs|[]]]]; discriminate|].
    split; vm_compute; reflexivity.
  - split; [split; [discriminate|simpl; tauto]|]. split; [reflexivity|].
    split; [intros [Hs|[Hs|Hs]]; discriminate|].
    split; [intros [Hs _]; now apply Hs|].
    split; vm_compute; reflexivity.
Qed.

(** C7 as the specification states it, "never throws or aborts on a
    malformed graph", fails: [ex_rootless] breaks the connectivity
    invariant, and [validate] does not return on it. *)
Lemma validate_aborts_without_root :
  ~ @valid_graph ex_externals ex_rootless
  /\ @validate ex_externals ex_rootless = Fault.
Proof.
  split; [|vm_compute; reflexivity].
  intros (_ & _ & _ & _ & Hconn).
  destruct (Hconn 10 (mkPSNode 1 NOOP [] [] [11])) as [Hp _];
    [split; [discriminate|simpl; tauto]|reflexivity|discriminate| |now apply Hp].
  intros [Hk|[Hk|[Hk|Hk]]]; discriminate.
Qed.

(** ** The concrete graphs *)

Lemma ex_valid_nodes nd n :
  in_node_set ex_valid nd -> mem ex_valid !! nd = Some n ->
  (nd = 10 /\ n = mkPSNode 1 NOOP [] [] [11])
  \/ (nd = 11 /\ n = mkPSNode 2 STORE [13; 14] [10; 12] [12])
  \/ (nd = 12 /\ n = mkPSNode 3 LOAD [13] [11] [11])
  \/ (nd = 13 /\ n = mkPSNode 4 CONSTANT [2] [] [])
  \/ (nd = 14 /\ n = mkPSNode 5 FUNCTION [] [] []).
Proof.
  intros [Hnd Hin] Hn. simpl in Hin.
  destruct Hin as [<-|[<-|[<-|[<-|[<-|[<-|[]]]]]]]; [now contradiction Hnd|..];
    vm_compute in Hn; injection Hn as <-; tauto.
Qed.

Lemma ex_valid_is_valid : @valid_graph ex_externals ex_valid.
Proof.
  split; [|split; [|split; [|split]]].
  - intros nd _. change (nodes (PS ex_valid)) with [0; 10; 11; 12; 13; 14].
    cbn [count_occ]. repeat destruct (N.eq_dec _ nd); subst; try congruence; lia.
  - intros nd n op Hnd Hn Hop.
    destruct (ex_valid_nodes nd n Hnd Hn) as [[-> ->]|[[-> ->]|[[-> ->]|[[-> ->]|[-> ->]]]]];
      simpl in Hop; try contradiction.
    + destruct Hop as [<-|[<-|[]]]; right; (split; [discriminate|simpl; tauto]).
    + destruct Hop as [<-|[]]; right; (split; [discriminate|simpl; tauto]).
    + destruct Hop as [<-|[]]. left. right. left. reflexivity.
  - intros nd n Hnd Hn.
    destruct (ex_valid_nodes nd n Hnd Hn) as [[-> ->]|[[-> ->]|[[-> ->]|[[-> ->]|[-> ->]]]]];
      reflexivity.
  - intros a na b nb Ha Hna Hb Hnb.
    destruct (ex_valid_nodes a na Ha Hna) as [[-> ->]|[[-> ->]|[[-> ->]|[[-> ->]|[-> ->]]]]];
      simpl in Hb; try contradiction; destruct Hb as [<-|[]];
      vm_compute in Hnb; injection Hnb as <-; simpl; tauto.
  - intros nd n Hnd Hn Hr Ho.
    assert (P11 : path (mem ex_valid) 10 11).
    { eapply path_step; [apply path_here|reflexivity|now left]. }
    destruct (ex_valid_nodes nd n Hnd Hn) as [[-> ->]|[[-> ->]|[[-> ->]|[[-> ->]|[-> ->]]]]].
    + now contradiction Hr.
    + split; [discriminate|exact P11].
    + split; [discriminate|]. eapply path_step; [exact P11|reflexivity|now left].
    + contradiction Ho. right. left. reflexivity.
    + contradiction Ho. left. reflexivity.
Qed.

Lemma ex_broken_paths x : path (mem ex_broken) 20 x -> x = 20 \/ x = 21 \/ x = 22.
Proof.
  induction 1 as [|b c n _ IH Hn Hc]; [tauto|].
  destruct IH as [-> | [-> | ->]]; vm_compute in Hn; injection Hn as <-;
    destruct Hc as [<-|[]]; tauto.
Qed.

(** ** Witnesses *)

Lemma valid_graph_accepted_witness :
  mem_safe ex_valid = true /\ @valid_graph ex_externals ex_valid
  /\ errors ex_valid = EmptyString
  /\ exists s', @validate ex_externals ex_valid = Ok (false, s')
                /\ errors s' = EmptyString.
Proof.
  split; [vm_compute; reflexivity|]. split; [exact ex_valid_is_valid|].
  split; [reflexivity|].
  apply (@valid_graph_accepted ex_externals ex_valid);
    [vm_compute; reflexivity|exact ex_valid_is_valid|reflexivity].
Defined.

Lemma arity_table_enforced_witness :
  mem_safe ex_broken = true
  /\ exists V, @checkOperands ex_externals ex_broken
               = Ok (flagged V, @logged ex_externals ex_broken V)
       /\ In (InvalOperands 21 msg_two_operands) V
       /\ In (InvalOperands 22 msg_phi_duplicate) V
       /\ ~ In (InvalOperands 23 msg_one_operand) V.
Proof.
  split; [vm_compute; reflexivity|].
  destruct (@arity_table_enforced ex_externals ex_broken) as (V & Hrun & HV);
    [vm_compute; reflexivity|].
  exists V. split; [exact Hrun|]. split; [|split].
  - apply (HV 21 (mkPSNode 2 STORE [25] [] [22]));
      [split; [discriminate|simpl; tauto]|reflexivity|discriminate|].
    split; [simpl; lia|reflexivity].
  - apply (HV 22 (mkPSNode 3 PHI [21; 21] [21] [21]));
      [split; [discriminate|simpl; tauto]|reflexivity|discriminate|].
    right. split; [discriminate|]. split; [|reflexivity].
    intros Hnd. apply NoDup_cons_1_1 in Hnd. apply Hnd. now left.
  - intros Hin.
    apply (HV 23 (mkPSNode 4 LOAD [21] [] [])) in Hin;
      [|split; [discriminate|simpl; tauto]|reflexivity|discriminate].
    destruct Hin as [Hlen _]. now apply Hlen.
Defined.

Lemma unknown_operand_reported_witness :
  mem_safe ex_broken = true
  /\ exists V, @checkOperands ex_externals ex_broken
               = Ok (flagged V, @logged ex_externals ex_broken V)
       /\ In (InvalOperands 21 msg_unknown_operand) V
       /\ exists s', @validate ex_externals ex_broken = Ok (true, s').
Proof.
  split; [vm_compute; reflexivity|].
  destruct (@unknown_operand_reported ex_externals ex_broken) as (V & Hrun & Hiff & Hval);
    [vm_compute; reflexivity|].
  assert (Hin : In (InvalOperands 21 msg_unknown_operand) V).
  { apply Hiff. exists (mkPSNode 2 STORE [25] [] [22]), 25.
    split; [split; [discriminate|simpl; tauto]|]. split; [reflexivity|].
    split; [now left|]. split.
    - intros [Hs|[Hs|Hs]]; discriminate Hs.
    - intros [_ Hl]. simpl in Hl.
      repeat (destruct Hl as [Hl|Hl]; [discriminate Hl|]). exact Hl. }
  exists V. split; [exact Hrun|]. split; [exact Hin|]. exact (Hval 21 Hin).
Defined.

Lemma asymmetric_edge_reported_witness :
  mem_safe ex_broken = true
  /\ exists V, @checkEdges ex_externals ex_broken
               = Ok (flagged V, @logged ex_externals ex_broken V)
       /\ In (InvalEdges 20 msg_not_predecessor) V
       /\ ~ In (InvalEdges 21 msg_not_predecessor) V.
Proof.
  split; [vm_compute; reflexivity|].
  destruct (@asymmetric_edge_reported ex_externals ex_broken) as (V & Hrun & Hiff & _);
    [vm_compute; reflexivity|].
  exists V. split; [exact Hrun|]. split.
  - apply Hiff.
    exists (mkPSNode 1 NOOP [] [] [21]), 21, (mkPSNode 2 STORE [25] [] [22]).
    split; [split; [discriminate|simpl; tauto]|]. split; [reflexivity|].
    split; [now left|]. split; [reflexivity|]. intros [].
  - intros (na & b & nb & _ & Hna & Hb & Hnb & Hp)%Hiff.
    vm_compute in Hna. injection Hna as <-. destruct Hb as [<-|[]].
    vm_compute in Hnb. injection Hnb as <-. apply Hp. now left.
Defined.

Lemma connectivity_enforced_witness :
  mem_safe ex_broken = true
  /\ exists V, @checkEdges ex_externals ex_broken
               = Ok (flagged V, @logged ex_externals ex_broken V)
       /\ In (InvalEdges 23 msg_no_predecessors) V
       /\ In (UnreachableNode 23) V
       /\ ~ In (UnreachableNode 22) V.
Proof.
  split; [vm_compute; reflexivity|].
  destruct (@connectivity_enforced ex_externals ex_broken) as (V & Hrun & Hpred & Hreach);
    [vm_compute; reflexivity|].
  exists V. split; [exact Hrun|]. split; [|split].
  - apply Hpred. exists (mkPSNode 4 LOAD [21] [] []).
    split; [split; [discriminate|simpl; tauto]|]. split; [reflexivity|].
    split; [reflexivity|]. split; [discriminate|].
    intros [Hk|[Hk|[Hk|Hk]]]; discriminate Hk.
  - apply Hreach. exists (mkPSNode 4 LOAD [21] [] []).
    split; [split; [discriminate|simpl; tauto]|]. split; [reflexivity|]. split.
    + intros [Hx|[Hx|Hx]]%ex_broken_paths; discriminate Hx.
    + intros [Hk|[Hk|[Hk|Hk]]]; discriminate Hk.
  - intros (n & _ & _ & Hp & _)%Hreach. apply Hp.
    apply (path_step _ _ 21 22 (mkPSNode 2 STORE [25] [] [22]));
      [|reflexivity|now left].
    apply (path_step _ _ 20 21 (mkPSNode 1 NOOP [] [] [21]));
      [apply path_here|reflexivity|now left].
Defined.

Lemma duplicate_nodes_reported_witness :
  mem_safe ex_broken = true
  /\ exists V, @checkOperands ex_externals ex_broken
               = Ok (flagged V, @logged ex_externals ex_broken V)
       /\ count_occ diag_eq_dec V (InvalNode 22 msg_multiple) = 1%nat
       /\ In (InvalOperands 21 msg_two_operands) V.
Proof.
  split; [vm_compute; reflexivity|].
  destruct (@duplicate_nodes_reported ex_externals ex_broken) as (V & Hrun & Hdup & _ & Har);
    [vm_compute; reflexivity|].
  exists V. split; [exact Hrun|]. split.
  - rewrite Hdup by discriminate. reflexivity.
  - apply Har; [discriminate|]. exists (mkPSNode 2 STORE [25] [] [22]).
    split; [split; [discriminate|simpl; tauto]|]. split; [reflexivity|].
    split; [simpl; lia|reflexivity].
Defined.

Lemma validate_runs_both_passes_witness :
  mem_safe ex_broken = true
  /\ (exists VA VB,
        @checkOperands ex_externals ex_broken
        = Ok (flagged VA, @logged ex_externals ex_broken VA)
        /\ @checkEdges ex_externals (@logged ex_externals ex_broken VA)
           = Ok (flagged VB, @logged ex_externals ex_broken (VA ++ VB))
        /\ @validate ex_externals ex_broken
           = Ok (flagged VA || flagged VB, @logged ex_externals ex_broken (VA ++ VB))
        /\ (flagged VA || flagged VB = true <-> VA ++ VB <> [])
        /\ (flagged VA || flagged VB = true
            <-> errors (@logged ex_externals ex_broken (VA ++ VB)) <> errors ex_broken))
  /\ root (PS ex_rootless) = nullptr
  /\ @validate ex_externals ex_rootless = Fault.
Proof.
  split; [vm_compute; reflexivity|].
  split.
  { destruct (@validate_runs_both_passes ex_externals ex_broken) as (_ & _ & Hok & _).
    apply Hok. vm_compute; reflexivity. }
  split; [reflexivity|].
  destruct (@validate_runs_both_passes ex_externals ex_rootless) as (_ & _ & _ & Hno).
  apply Hno. reflexivity.
Defined.

Lemma validate_leaves_graph_untouched_witness :
  exists b s', @validate ex_externals ex_broken = Ok (b, s')
    /\ mem s' = mem ex_broken /\ PS s' = PS ex_broken
    /\ exists t, errors s' = errors ex_broken +:+ t
         /\ @validate ex_externals s' = Ok (b, set_errors s' (errors s' +:+ t)).
Proof.
  assert (Hrun : exists b s', @validate ex_externals ex_broken = Ok (b, s')).
  { rewrite (emits_here ex_broken _ _ _ (@emits_validate ex_externals ex_broken eq_refl)).
    eauto. }
  destruct Hrun as (b & s' & Hrun). exists b, s'. split; [exact Hrun|].
  exact (@validate_leaves_graph_untouched ex_externals ex_broken b s' Hrun).
Defined.

Lemma reachableNodes_terminates_witness :
  mem_safe ex_valid = true /\ allocated (mem ex_valid) 10 = true
  /\ reachableNodes 10 ex_valid <> OutOfFuel
  /\ exists R, reachableNodes 10 ex_valid = Ok (R, ex_valid) /\ 10 ∈ R /\ 12 ∈ R.
Proof.
  split; [vm_compute; reflexivity|]. split; [vm_compute; reflexivity|].
  destruct (reachableNodes_terminates ex_valid 10) as (Hno & _ & Hok & _).
  split; [exact Hno|].
  destruct Hok as (R & Hrun & HR); [vm_compute; reflexivity|vm_compute; reflexivity|].
  exists R. split; [exact Hrun|]. split; apply HR.
  - apply path_here.
  - apply (path_step _ _ 11 12 (mkPSNode 2 STORE [13; 14] [10; 12] [12]));
      [|reflexivity|now left].
    apply (path_step _ _ 10 11 (mkPSNode 1 NOOP [] [] [11]));
      [apply path_here|reflexivity|now left].
Defined.

Lemma null_entries_skipped_witness :
  mem_safe ex_broken = true
  /\ exists V, @validate ex_externals ex_broken
               = Ok (flagged V, @logged ex_externals ex_broken V)
       /\ (forall d, In d V -> diag_node d <> nullptr)
       /\ @validate ex_externals (without_null ex_broken)
          = Ok (flagged V, @logged ex_externals (without_null ex_broken) V)
       /\ errors (@logged ex_externals (without_null ex_broken) V)
          = errors (@logged ex_externals ex_broken V).
Proof.
  split; [vm_compute; reflexivity|].
  apply (@null_entries_skipped ex_externals ex_broken). vm_compute; reflexivity.
Defined.

(** * Further properties of the code *)

(** ** The text [dumpNode] and the report functions append *)

Lemma bind_eq {A B} (m : M A) (f : A -> M B) s r :
  m s = r ->
  bind m f s = match r with Ok (a, s') => f a s' | Fault => Fault | OutOfFuel => OutOfFuel end.
Proof. intros <-. reflexivity. Qed.

Lemma field_eq {A} (f : PSNode -> A) p s :
  (let* x := deref p in ret (f x)) s
  = match (if allocated (mem s) p then mem s !! p else None) with
    | Some n => Ok (f n, s)
    | None => Fault
    end.
Proof.
  unfold bind. rewrite deref_eq.
  now destruct (if allocated (mem s) p then mem s !! p else None).
Qed.

Lemma field_ok {A} (f : PSNode -> A) p n s :
  p <> nullptr -> mem s !! p = Some n -> (let* x := deref p in ret (f x)) s = Ok (f n, s).
Proof.
  intros Hp Hn. rewrite field_eq.
  assert (allocated (mem s) p = true) as ->; [|now rewrite Hn].
  unfold allocated. apply andb_true_intro. split.
  - now apply negb_true_iff, N.eqb_neq.
  - apply bool_decide_eq_true. eauto.
Qed.

Section DumpNode.
Context `{Externals}.

Lemma getOperand_ok s nd n i op :
  nd <> nullptr -> mem s !! nd = Some n -> operands n !! i = Some op ->
  getOperand nd i s = Ok (op, s).
Proof.
  intros Hnd Hn Hop. unfold getOperand, bind. rewrite deref_eq.
  assert (allocated (mem s) nd = true) as ->.
  { unfold allocated. apply andb_true_intro. split.
    - now apply negb_true_iff, N.eqb_neq.
    - apply bool_decide_eq_true. eauto. }
  rewrite Hn, Hop. reflexivity.
Qed.

Lemma dumpNode_operand_eq s nd n e i op u :
  nd <> nullptr -> mem s !! nd = Some n -> operands n !! i = Some op ->
  dumpNode_operand nd e u i s
  = if allocated (mem s) op
    then Ok (tt, set_errors s (errors s +:+ operand_text (mem s) op
                               +:+ (if Nat.eqb i (e - 1) then EmptyString else ", ")))
    else Fault.
Proof.
  intros Hnd Hn Hop. unfold dumpNode_operand.
  rewrite (bind_eq _ _ _ _ (getOperand_ok s nd n i op Hnd Hn Hop)).
  unfold getID. rewrite (bind_eq _ _ _ _ (field_eq id op s)).
  destruct (allocated (mem s) op) eqn:Hal; [|reflexivity].
  destruct (allocated_lookup s op Hal) as (Hop0 & o & Ho). rewrite Ho.
  unfold append at 1. unfold bind at 1.
  unfold getType.
  rewrite (bind_eq _ _ _ _ (field_ok type op o (set_errors s _) Hop0 Ho)).
  unfold append at 1. unfold bind at 1.
  unfold operand_text. rewrite Ho.
  destruct (Nat.eqb i (e - 1)); simpl; unfold ret, append, set_errors; simpl;
    now rewrite ?append_nil_r, ?append_assoc.
Qed.

Lemma dumpNode_loop_eq nd n :
  nd <> nullptr ->
  forall rest pre s, mem s !! nd = Some n -> operands n = pre ++ rest ->
    foldM (dumpNode_operand nd (length (operands n)))
          (seq (length pre) (length rest)) tt s
    = if forallb (allocated (mem s)) rest
      then Ok (tt, set_errors s
                     (errors s +:+ comma_separated (map (operand_text (mem s)) rest)))
      else Fault.
Proof.
  intros Hnd. induction rest as [|op rest IH]; intros pre s Hn Hops.
  - simpl. unfold ret. now rewrite append_nil_r, set_errors_id.
  - cbn [length seq foldM forallb map].
    assert (Hop : operands n !! length pre = Some op).
    { rewrite Hops. apply list_lookup_middle. reflexivity. }
    assert (Hlen : length (operands n) = (length pre + S (length rest))%nat).
    { rewrite Hops, length_app. reflexivity. }
    rewrite (bind_eq _ _ _ _ (dumpNode_operand_eq s nd n _ _ op tt Hnd Hn Hop)).
    destruct (allocated (mem s) op) eqn:Hal; [|reflexivity]. simpl andb.
    specialize (IH (pre ++ [op])).
    rewrite length_app in IH. simpl length in IH. rewrite Nat.add_1_r in IH.
    rewrite IH; [|exact Hn|now rewrite <- app_assoc]. simpl mem.
    destruct (forallb (allocated (mem s)) rest) eqn:Hrest; [|reflexivity].
    unfold set_errors. simpl. f_equal. f_equal. f_equal.
    destruct rest as [|op' rest].
    + assert (Nat.eqb (length pre) (length (operands n) - 1) = true) as ->.
      { apply Nat.eqb_eq. rewrite Hlen. simpl. lia. }
      simpl. now rewrite !append_nil_r.
    + assert (Nat.eqb (length pre) (length (operands n) - 1) = false) as ->.
      { apply Nat.eqb_neq. rewrite Hlen. simpl. lia. }
      cbn [map comma_separated]. now rewrite !append_assoc.
Qed.

Lemma dumpNode_eq s nd :
  dumpNode nd s
  = match (if allocated (mem s) nd then mem s !! nd else None) with
    | Some n =>
        if forallb (allocated (mem s)) (operands n)
        then Ok (tt, set_errors s (errors s +:+ dump_text (mem s) n))
        else Fault
    | None => Fault
    end.
Proof.
  unfold dumpNode. unfold getType at 1.
  rewrite (bind_eq _ _ _ _ (field_eq type nd s)).
  destruct (allocated (mem s) nd) eqn:Hal; [|reflexivity].
  destruct (allocated_lookup s nd Hal) as (Hnd & n & Hn). rewrite Hn.
  cbv beta iota.
  unfold getID. rewrite (bind_eq _ _ _ _ (field_ok id nd n s Hnd Hn)).
  cbv beta iota. unfold append at 1. unfold bind at 1. cbv beta iota.
  unfold getOperandsNum.
  rewrite (bind_eq _ _ _ _
             (field_ok (fun n => length (operands n)) nd n (set_errors s _) Hnd Hn)).
  cbv beta iota.
  change (foldM _ (seq 0 (length (operands n))) tt)
    with (foldM (dumpNode_operand nd (length (operands n)))
            (seq (length (@nil N)) (length (operands n))) tt).
  rewrite (bind_eq _ _ _ _
             (dumpNode_loop_eq nd n Hnd (operands n) [] (set_errors s _) Hn eq_refl)).
  simpl mem. destruct (forallb (allocated (mem s)) (operands n)); [|reflexivity].
  unfold append. unfold dump_text, set_errors. simpl.
  now rewrite !append_assoc.
Qed.

End DumpNode.

Lemma forallb_false_ex {A} (f : A -> bool) (l : list A) :
  forallb f l = false -> exists x, In x l /\ f x = false.
Proof.
  induction l as [|x l IH]; simpl; [discriminate|].
  destruct (f x) eqn:Hx; simpl.
  - intros (y & Hy & Hf)%IH. eauto.
  - intros _. eauto.
Qed.

Lemma path_trans m a b c : path m a b -> path m b c -> path m a c.
Proof.
  intros Hab. induction 1 as [|c d n _ IH Hn Hd]; [assumption|].
  eapply path_step; eassumption.
Qed.

Section ReportText.
Context `{Externals}.

Lemma append_user_err_eq msg s :
  append_user_err msg s = Ok (tt, set_errors s (errors s +:+ explanation_line msg)).
Proof.
  destruct msg; simpl; [|reflexivity].
  unfold ret. now rewrite append_nil_r, set_errors_id.
Qed.

Lemma report_eq d s :
  report d s
  = match (if allocated (mem s) (diag_node d) then mem s !! diag_node d else None) with
    | Some n =>
        if forallb (allocated (mem s)) (operands n)
        then Ok (true, set_errors s (errors s +:+ category d +:+ nl
                                     +:+ dump_text (mem s) n
                                     +:+ explanation_line (explanation d)))
        else Fault
    | None => Fault
    end.
Proof.
  destruct d as [nd msg|nd msg|nd msg|nd]; simpl;
    unfold reportInvalOperands, reportInvalEdges, reportInvalNode, reportUnreachableNode;
    unfold append at 1; unfold bind at 1;
    rewrite (bind_eq _ _ _ _ (dumpNode_eq (set_errors s _) nd)); simpl mem;
    (destruct (if allocated (mem s) nd then mem s !! nd else None) as [n|];
     [|reflexivity]);
    (destruct (forallb (allocated (mem s)) (operands n)); [|reflexivity]);
    unfold bind; rewrite ?append_user_err_eq;
    unfold ret, set_errors; cbn [errors mem PS category explanation explanation_line];
    now rewrite ?append_nil_r, ?append_assoc.
Qed.

Lemma printable_lookup s nd n :
  printable s nd -> mem s !! nd = Some n ->
  (if allocated (mem s) nd then mem s !! nd else None) = Some n
  /\ forallb (allocated (mem s)) (operands n) = true.
Proof.
  intros (Hnd & n' & Hn' & Hops) Hn. assert (n' = n) as -> by congruence.
  split.
  - assert (allocated (mem s) nd = true) as ->; [|assumption].
    unfold allocated. apply andb_true_intro. split.
    + now apply negb_true_iff, N.eqb_neq.
    + apply bool_decide_eq_true. eauto.
  - now apply forallb_forall.
Qed.

Lemma printable_cases s nd :
  match (if allocated (mem s) nd then mem s !! nd else None) with
  | Some n => if forallb (allocated (mem s)) (operands n)
              then printable s nd else ~ printable s nd
  | None => ~ printable s nd
  end.
Proof.
  destruct (allocated (mem s) nd) eqn:Hal.
  - destruct (allocated_lookup s nd Hal) as (Hnd & n & Hn). rewrite Hn.
    destruct (forallb (allocated (mem s)) (operands n)) eqn:Hops.
    + split; [assumption|]. exists n. split; [assumption|]. now apply forallb_forall.
    + intros (_ & n' & Hn' & Hops'). assert (n' = n) as -> by congruence.
      apply forallb_forall in Hops'. congruence.
  - intros (Hnd & n & Hn & _).
    unfold allocated in Hal. apply andb_false_iff in Hal as [Hz|Hb].
    + apply negb_false_iff, N.eqb_eq in Hz. contradiction.
    + apply bool_decide_eq_false in Hb. apply Hb. eauto.
Qed.

End ReportText.

Section TraversalExact.
Context (s : state) (nd : ptr).

Lemma reachableNodes_while_fault : forall fuel R T,
  bfs_inv (mem s) nd R T ->
  reachableNodes_while fuel R T s = Fault ->
  exists x, path (mem s) nd x /\ allocated (mem s) x = false.
Proof.
  induction fuel as [|fuel IH]; intros R [|t T] Hinv; cbn [reachableNodes_while];
    try discriminate.
  unfold bind. rewrite round_eq.
  destruct (forallb (allocated (mem s)) (t :: T)) eqn:Hal.
  - destruct (fold_left (expand_cur (mem s)) (t :: T) (R, [])) as [R1 T1] eqn:Hfold.
    apply IH. eapply bfs_round; eassumption.
  - intros _. apply forallb_false_ex in Hal as (x & Hx & Hf).
    exists x. split; [|assumption]. apply Hinv. now apply Hinv.
Qed.

Lemma reachableNodes_while_ok_inv : forall fuel R T,
  bfs_inv (mem s) nd R T ->
  (forall x, x ∈ R -> ~ In x T -> allocated (mem s) x = true) ->
  forall R' s', reachableNodes_while fuel R T s = Ok (R', s') ->
    bfs_inv (mem s) nd R' [] /\ forall x, x ∈ R' -> allocated (mem s) x = true.
Proof.
  induction fuel as [|fuel IH]; intros R [|t T] Hinv Hal R' s';
    cbn [reachableNodes_while]; try discriminate.
  - intros [= <- <-]. split; [assumption|]. intros x Hx. apply Hal; [assumption|tauto].
  - intros [= <- <-]. split; [assumption|]. intros x Hx. apply Hal; [assumption|tauto].
  - unfold bind. rewrite round_eq.
    destruct (forallb (allocated (mem s)) (t :: T)) eqn:HT; [|discriminate].
    destruct (fold_left (expand_cur (mem s)) (t :: T) (R, [])) as [R1 T1] eqn:Hfold.
    apply IH; [eapply bfs_round; eassumption|].
    destruct (round_fresh _ _ _ _ _ Hfold) as [G1 HT1].
    intros x Hx HxT1.
    destruct (decide (x ∈ R)) as [HxR|HxR]; [|exfalso; apply HxT1, HT1; tauto].
    destruct (in_dec N.eq_dec x (t :: T)) as [HxT|HxT].
    + rewrite forallb_forall in HT. now apply HT.
    + now apply Hal.
Qed.

Lemma reachableNodes_ok_inv R s' :
  reachableNodes nd s = Ok (R, s') ->
  (forall x, x ∈ R <-> path (mem s) nd x)
  /\ (forall x, x ∈ R -> allocated (mem s) x = true).
Proof.
  intros Hrun.
  destruct (reachableNodes_while_ok_inv _ _ _ (bfs_inv_start (mem s) nd)
              ltac:(intros x ->%elem_of_singleton Hx; exfalso; apply Hx; now left)
              R s' Hrun) as [Hinv Hal].
  split; [|exact Hal].
  intros x. split; [apply Hinv|now apply (bfs_inv_complete (mem s) nd)].
Qed.

Lemma reachableNodes_fault_iff :
  reachableNodes nd s = Fault
  <-> exists x, path (mem s) nd x /\ allocated (mem s) x = false.
Proof.
  split.
  - apply reachableNodes_while_fault, bfs_inv_start.
  - intros (x & Hp & Hx).
    destruct (reachableNodes_while_terminates s (S (size (mem s))) {[nd]} [nd])
      as [Hno _].
    { intros y [<-|[]]. now apply elem_of_singleton. }
    { apply unexpanded_start. }
    fold (reachableNodes nd s) in Hno.
    destruct (reachableNodes nd s) as [[R s']| |] eqn:Hrun; [|reflexivity|congruence].
    destruct (reachableNodes_ok_inv R s' Hrun) as [HR Hal].
    rewrite (Hal x) in Hx; [discriminate|]. now apply HR.
Qed.

End TraversalExact.

(** ** Reordered collections, empty collections, exactness *)

Lemma known_diags_count_other l (K : gset N) d :
  (forall nd, nd <> nullptr -> d <> InvalNode nd msg_multiple) ->
  count_occ diag_eq_dec (known_diags K l) d = 0%nat.
Proof.
  intros Hd. apply count_occ_not_In.
  intros (nd & -> & Hnd & _)%known_diags_shape. now apply (Hd nd).
Qed.

Lemma known_diags_perm l l' :
  Permutation l l' -> Permutation (known_diags ∅ l) (known_diags ∅ l').
Proof.
  intros Hp. apply (Permutation_count_occ diag_eq_dec). intros d.
  destruct d as [nd msg|nd msg|nd msg|nd];
    try (rewrite !known_diags_count_other; [reflexivity|discriminate|discriminate]).
  destruct (decide (nd <> nullptr /\ msg = msg_multiple)) as [[Hnd ->]|Hno].
  - rewrite !known_diags_count by assumption.
    now rewrite (proj1 (Permutation_count_occ N.eq_dec l l') Hp nd).
  - rewrite !known_diags_count_other; [reflexivity| |];
      intros x Hx [= -> ->]; apply Hno; now split.
Qed.

Lemma known_set_perm l l' : Permutation l l' -> known_set ∅ l = known_set ∅ l'.
Proof.
  intros Hp. apply set_eq. intros x. rewrite !known_set_spec.
  split; (intros [?|[? Hin]]; [now left|right; split; [assumption|]]).
  - eapply Permutation_in; eassumption.
  - eapply Permutation_in; [apply Permutation_sym|]; eassumption.
Qed.

Section Collections.
Context `{Externals}.

Lemma mem_safe_with_nodes s l :
  mem_safe s = true -> (forall x, In x l -> In x (nodes (PS s))) ->
  mem_safe (with_nodes l s) = true.
Proof.
  unfold mem_safe, with_nodes. simpl.
  intros [[Hr Hn]%andb_prop Hm]%andb_prop Hsub.
  rewrite Hr, Hm, andb_true_r. simpl.
  rewrite forallb_forall in *. intros x Hx. apply Hn, Hsub, Hx.
Qed.

Lemma reachable_from_root_with_nodes s l :
  mem_safe s = true -> mem_safe (with_nodes l s) = true ->
  reachable_from_root (with_nodes l s) = reachable_from_root s.
Proof.
  intros Hs Hs'. apply set_eq. intros x.
  rewrite (proj2 (reachable_from_root_spec _ Hs')).
  rewrite (proj2 (reachable_from_root_spec _ Hs)). reflexivity.
Qed.

Lemma validate_diags_perm s l :
  mem_safe s = true -> Permutation (nodes (PS s)) l ->
  Permutation (validate_diags s) (validate_diags (with_nodes l s)).
Proof.
  intros Hs Hp.
  assert (Hs' : mem_safe (with_nodes l s) = true).
  { apply mem_safe_with_nodes; [assumption|]. intros x Hx.
    eapply Permutation_in; [apply Permutation_sym|]; eassumption. }
  unfold validate_diags, checkOperands_diags, checkEdges_diags.
  rewrite (reachable_from_root_with_nodes s l Hs Hs'). simpl nodes.
  rewrite <- (known_set_perm _ _ Hp).
  repeat apply Permutation_app.
  - now apply known_diags_perm.
  - change (node_diags (with_nodes l s)) with (node_diags s).
    now apply Permutation_flat_map.
  - change (edge_diags (with_nodes l s)) with (edge_diags s).
    now apply Permutation_flat_map.
  - change (unreachable_diags (with_nodes l s)) with (unreachable_diags s).
    now apply Permutation_flat_map.
Qed.

Lemma flagged_perm (V V' : list diag) : Permutation V V' -> flagged V = flagged V'.
Proof.
  intros Hp. destruct V, V'; try reflexivity.
  - now apply Permutation_nil_cons in Hp.
  - apply Permutation_sym in Hp. now apply Permutation_nil_cons in Hp.
Qed.

Lemma validate_empty_eq s :
  nodes (PS s) = [] ->
  validate s = match reachableNodes (root (PS s)) s with
               | Ok (_, s') => Ok (false, s')
               | Fault => Fault
               | OutOfFuel => OutOfFuel
               end.
Proof.
  intros Hn. unfold validate, checkOperands, checkEdges, bind, getNodes, getRoot.
  repeat (rewrite Hn; cbn [foldM ret]).
  now destruct (reachableNodes (root (PS s)) s) as [[R s']| |].
Qed.

End Collections.

(** ** Deciding the invariants *)

Lemma arity_contract_dec k (ops : list ptr) :
  {arity_contract k ops} + {~ arity_contract k ops}.
Proof.
  unfold arity_contract. destruct k; try apply Nat.eq_dec.
  destruct (le_dec 1 (length ops)); [|right; tauto].
  destruct (decide (NoDup ops)); [left; tauto|right; tauto].
Qed.

Section Completeness.
Context `{Externals}.

Lemma unknown_operand_false known op :
  unknown_operand known op = false -> is_sentinel op \/ op ∈ known.
Proof.
  unfold unknown_operand, is_sentinel.
  destruct (N.eqb op NULLPTR) eqn:H1; [apply N.eqb_eq in H1; tauto|].
  destruct (N.eqb op UNKNOWN_MEMORY) eqn:H2; [apply N.eqb_eq in H2; tauto|].
  destruct (N.eqb op INVALIDATED) eqn:H3; [apply N.eqb_eq in H3; tauto|].
  simpl. intros Hk%negb_false_iff%bool_decide_eq_true. tauto.
Qed.

Lemma nil_no_entry {A} (l : list A) : l = [] <-> forall x, ~ In x l.
Proof.
  split; [intros -> x []|]. destruct l as [|x l]; [reflexivity|].
  intros Hno. exfalso. apply (Hno x). now left.
Qed.

Lemma checkOperands_diags_nil s :
  checkOperands_diags s = []
  <-> unique_nodes s /\ operands_known s /\ arity_respected s.
Proof.
  rewrite nil_no_entry. split.
  - intros HnoA. split; [|split].
    + intros nd Hnd.
      pose proof (diags_multiple_count s nd Hnd) as Hc.
      rewrite (proj1 (count_occ_not_In diag_eq_dec _ _) (HnoA _)) in Hc. lia.
    + intros nd n op Hnd Hn Hop.
      destruct (unknown_operand (known_set ∅ (nodes (PS s))) op) eqn:Hu.
      * exfalso. apply (HnoA (InvalOperands nd msg_unknown_operand)).
        apply diags_unknown_operand. exists n, op.
        apply unknown_operand_spec in Hu. tauto.
      * apply unknown_operand_false in Hu as [?|Hk]; [now left|right].
        apply known_set_spec in Hk as [[]%not_elem_of_empty|?]. assumption.
    + intros nd n Hnd Hn.
      destruct (arity_contract_dec (type n) (operands n)) as [?|Hc]; [assumption|].
      exfalso. apply arity_violation_contract in Hc as (msg & Hv).
      apply (HnoA (InvalOperands nd msg)).
      apply diags_arity; [now apply arity_violation_not_unknown in Hv|]. eauto.
  - intros (Huniq & Hops & Har) d Hd.
    apply checkOperands_diags_In in Hd as [Hd|(nd & n & Hnd & Hn & [Hd|Hd])].
    + destruct (known_diags_shape _ _ _ Hd) as (nd & -> & Hnd & _).
      apply (count_occ_In diag_eq_dec) in Hd.
      rewrite known_diags_count in Hd by assumption.
      rewrite (bool_decide_eq_false_2 (nd ∈ (∅ : gset N))) in Hd
        by apply not_elem_of_empty.
      specialize (Huniq nd Hnd). lia.
    + apply operand_diags_In in Hd as (_ & op & Hop & [Hsen Hin]%unknown_operand_spec).
      destruct (Hops nd n op Hnd Hn Hop); contradiction.
    + apply arity_diags_In in Hd as (msg & _ & Hv).
      apply (proj1 (arity_violation_contract (type n) (operands n))); [eauto|].
      now apply (Har nd n).
Qed.

Lemma checkEdges_diags_nil s :
  mem_safe s = true ->
  (checkEdges_diags s = [] <-> edges_symmetric s /\ connected s).
Proof.
  intros Hs. destruct (reachable_from_root_spec s Hs) as [_ HR].
  rewrite nil_no_entry. split.
  - intros HnoB. split.
    + intros a na b nb Ha Hna Hb Hnb.
      destruct (in_dec N.eq_dec a (predecessors nb)) as [?|Hp]; [assumption|].
      exfalso. apply (HnoB (InvalEdges a msg_not_predecessor)).
      apply diags_not_predecessor. exists na, b, nb. tauto.
    + intros nd n Hnd Hn Hr Ho. split.
      * intros Hp. apply (HnoB (InvalEdges nd msg_no_predecessors)).
        apply diags_no_predecessors. exists n. tauto.
      * apply HR.
        destruct (decide (nd ∈ reachable_from_root s)) as [?|Hnr]; [assumption|].
        exfalso. apply (HnoB (UnreachableNode nd)).
        apply diags_unreachable; [assumption|]. exists n. rewrite <- HR. tauto.
  - intros (Hsym & Hconn) d Hd.
    apply checkEdges_diags_In in Hd as (nd & n & Hnd & Hn & [Hd|[Hd|(-> & Hnr & Ho)]]).
    + apply predecessor_diags_In in Hd as (_ & Hp & Hr & Ho).
      destruct (Hconn nd n Hnd Hn Hr Ho). contradiction.
    + apply successor_diags_In in Hd as (_ & b & nb & Hb & Hnb & Hp).
      apply Hp. eapply Hsym; eassumption.
    + apply Hnr, HR.
      destruct (N.eq_dec nd (root (PS s))) as [->|Hr]; [constructor|].
      now apply (Hconn nd n).
Qed.

Lemma validate_diags_nil_valid s :
  mem_safe s = true -> validate_diags s = [] -> valid_graph s.
Proof.
  intros Hs [HA HB]%app_eq_nil.
  apply checkOperands_diags_nil in HA. apply (checkEdges_diags_nil s Hs) in HB.
  unfold valid_graph. tauto.
Qed.


End Completeness.

(** ** Operands that lead nowhere *)

Section DeadOperand.
Context `{Externals}.

(** A loop does not get past an element at which its body faults. *)
Lemma foldM_stuck {A B} (m0 : gmap N PSNode) (body : B -> A -> M B) (x : A) :
  (forall b y s b' s', mem s = m0 -> body b y s = Ok (b', s') -> mem s' = m0) ->
  (forall b y, fuel_free (body b y)) ->
  (forall b s, mem s = m0 -> body b x s = Fault) ->
  forall l, In x l -> forall b s, mem s = m0 -> foldM body l b s = Fault.
Proof.
  intros Hkeep Hfuel Hx. induction l as [|y l IH]; intros Hin b s Hs; [destruct Hin|].
  simpl. unfold bind. destruct Hin as [->|Hin]; [now rewrite Hx|].
  pose proof (Hfuel b y s) as Hno. pose proof (Hkeep b y s) as Hk.
  destruct (body b y s) as [[b' s']| |]; [|reflexivity|congruence].
  apply IH; [assumption|]. now apply (Hk b' s').
Qed.

Lemma tracks_mem {A} (flag : A -> bool) i (m : M A) s a s' :
  tracks flag i m -> m s = Ok (a, s') -> mem s' = mem s.
Proof. intros Htr Hrun. now apply Htr in Hrun as (t & -> & _). Qed.

(** The set the first loop of [checkOperands] builds. *)
Lemma checkOperands_known_set l : forall invalid known s invalid' known' s',
  foldM checkOperands_known l (invalid, known) s = Ok ((invalid', known'), s') ->
  known' = known_set known l.
Proof.
  induction l as [|nd l IH]; intros invalid known s invalid' known' s' Hrun.
  - now injection Hrun as _ <- _.
  - cbn [foldM known_set] in *. unfold bind, checkOperands_known in Hrun.
    destruct (N.eqb nd nullptr); [now apply IH in Hrun|].
    destruct (bool_decide (nd ∈ known)); [|now apply IH in Hrun].
    unfold bind in Hrun.
    destruct (reportInvalNode nd msg_multiple s) as [[r s1]| |]; try discriminate.
    now apply IH in Hrun.
Qed.

(** [checkOperands_node] faults at a node that holds no node, and at a
    node one of whose operands passes the test of the operand loop and
    holds no node. *)
Lemma checkOperands_node_dead known invalid nd s :
  nd <> nullptr -> allocated (mem s) nd = false ->
  checkOperands_node known invalid nd s = Fault.
Proof.
  intros Hnd Hal. unfold checkOperands_node, getOperands.
  apply N.eqb_neq in Hnd. rewrite Hnd.
  rewrite (bind_eq _ _ _ _ (field_eq operands nd s)). now rewrite Hal.
Qed.

Lemma checkOperands_operand_dead known nd n invalid op s :
  nd <> nullptr -> mem s !! nd = Some n -> In op (operands n) ->
  unknown_operand known op = true -> allocated (mem s) op = false ->
  checkOperands_operand known nd invalid op s = Fault.
Proof.
  intros Hnd Hn Hop Hunk Hal. unfold checkOperands_operand.
  fold (unknown_operand known op). rewrite Hunk.
  change (reportInvalOperands nd msg_unknown_operand)
    with (report (InvalOperands nd msg_unknown_operand)).
  rewrite (bind_eq _ _ _ _ (report_eq (InvalOperands nd msg_unknown_operand) s)).
  simpl. destruct (allocated (mem s) nd); [|reflexivity]. rewrite Hn.
  destruct (forallb (allocated (mem s)) (operands n)) eqn:Hall; [|reflexivity].
  rewrite forallb_forall in Hall. rewrite (Hall op Hop) in Hal. discriminate.
Qed.

Lemma checkOperands_node_dead_operand known invalid nd n op s :
  nd <> nullptr -> mem s !! nd = Some n -> In op (operands n) ->
  unknown_operand known op = true -> allocated (mem s) op = false ->
  checkOperands_node known invalid nd s = Fault.
Proof.
  intros Hnd Hn Hop Hunk Hal. unfold checkOperands_node, getOperands.
  rewrite (proj2 (N.eqb_neq nd nullptr) Hnd).
  rewrite (bind_eq _ _ _ _ (field_ok operands nd n s Hnd Hn)).
  rewrite (bind_eq _ _ _ _
    (foldM_stuck (mem s) (checkOperands_operand known nd) op
       (fun b y s1 b' s' Hs Hrun =>
          eq_trans (tracks_mem _ _ _ _ _ _ (tracks_checkOperands_operand known nd b y) Hrun) Hs)
       (fun b y => fuel_free_checkOperands_operand known nd b y)
       (fun b s1 Hs => checkOperands_operand_dead known nd n b op s1 Hnd
                         (eq_ind_r (fun m => m !! nd = Some n) Hn Hs) Hop Hunk
                         (eq_ind_r (fun m => allocated m op = false) Hal Hs))
       (operands n) Hop invalid s eq_refl)).
  reflexivity.
Qed.

Lemma checkOperands_dead_operand s nd n op :
  in_node_set s nd -> mem s !! nd = Some n -> In op (operands n) ->
  ~ is_sentinel op -> allocated (mem s) op = false ->
  checkOperands s = Fault.
Proof.
  intros [Hnd Hin] Hn Hop Hsen Hal. unfold checkOperands, bind, getNodes.
  pose proof (fuel_free_foldM checkOperands_known (nodes (PS s))
                fuel_free_checkOperands_known (false, ∅) s) as Hno.
  pose proof (tracks_foldM fst checkOperands_known (nodes (PS s))
                tracks_checkOperands_known (false, ∅) s) as Htr.
  pose proof (checkOperands_known_set (nodes (PS s)) false ∅ s) as Hset.
  destruct (foldM checkOperands_known (nodes (PS s)) (false, ∅) s)
    as [[[invalid known] s1]| |]; [|reflexivity|congruence].
  destruct (Htr _ _ eq_refl) as (t & -> & _).
  rewrite (Hset _ _ _ eq_refl). clear Hno Htr Hset.
  assert (Hkeep : forall b y s2 b' s', mem s2 = mem s ->
            checkOperands_node (known_set ∅ (nodes (PS s))) b y s2 = Ok (b', s') ->
            mem s' = mem s).
  { intros b y s2 b' s' Hs Hrun. rewrite <- Hs.
    exact (tracks_mem _ _ _ _ _ _ (tracks_checkOperands_node _ b y) Hrun). }
  destruct (In_dec N.eq_dec op (nodes (PS s))) as [Hreg|Hreg];
    [destruct (N.eq_dec op nullptr) as [Hz|Hz]|].
  - (* a null operand is no node of the collection *)
    apply (foldM_stuck (mem s) _ nd Hkeep (fuel_free_checkOperands_node _));
      [|assumption|reflexivity].
    intros b s2 Hs. apply (checkOperands_node_dead_operand _ _ _ n op);
      rewrite ?Hs; try assumption.
    apply unknown_operand_spec. split; [assumption|]. intros [Hop0 _]. contradiction.
  - (* a registered operand that holds no node is read as a node *)
    apply (foldM_stuck (mem s) _ op Hkeep (fuel_free_checkOperands_node _));
      [|assumption|reflexivity].
    intros b s2 Hs. apply checkOperands_node_dead; [assumption|now rewrite Hs].
  - apply (foldM_stuck (mem s) _ nd Hkeep (fuel_free_checkOperands_node _));
      [|assumption|reflexivity].
    intros b s2 Hs. apply (checkOperands_node_dead_operand _ _ _ n op);
      rewrite ?Hs; try assumption.
    apply unknown_operand_spec. split; [assumption|]. intros [_ Hop1]. contradiction.
Qed.

End DeadOperand.

(** ** The properties *)

Section Further.
Context `{Externals}.

(** X1.  [dumpNode] appends the kind and id of the node and, between
    brackets, the id and kind of every operand, separated by a comma and
    a space with none after the last one. *)
Theorem dumpNode_text (s : state) (nd : ptr) (n : PSNode) :
  printable s nd -> mem s !! nd = Some n ->
  dumpNode nd s = Ok (tt, set_errors s (errors s +:+ dump_text (mem s) n)).
Proof.
  intros Hp Hn. rewrite dumpNode_eq.
  destruct (printable_lookup s nd n Hp Hn) as [-> ->]. reflexivity.
Qed.

(** X2.  Each of the four report functions returns [true] and appends its
    category line, the dump of the node and, unless the explanation is
    empty, the explanation between parentheses on a line of its own. *)
Theorem report_entry_text (s : state) (d : diag) (n : PSNode) :
  printable s (diag_node d) -> mem s !! diag_node d = Some n ->
  report d s = Ok (true, set_errors s (errors s +:+ category d +:+ nl
                                       +:+ dump_text (mem s) n
                                       +:+ explanation_line (explanation d))).
Proof.
  intros Hp Hn. rewrite report_eq.
  destruct (printable_lookup s (diag_node d) n Hp Hn) as [-> ->]. reflexivity.
Qed.

(** X3.  [dumpNode], and with it every report function, reads the node
    and each of its operands: it faults exactly when the node or one of
    its operands is null or holds no node. *)
Theorem dumpNode_faults (s : state) (nd : ptr) :
  (dumpNode nd s = Fault <-> ~ printable s nd)
  /\ forall d, diag_node d = nd -> (report d s = Fault <-> ~ printable s nd).
Proof.
  pose proof (printable_cases s nd) as Hc.
  split; [|intros d <-]; [rewrite dumpNode_eq|rewrite report_eq];
    (destruct (if allocated (mem s) _ then _ else _) as [n|];
     [destruct (forallb (allocated (mem s)) (operands n))|]);
    split; try discriminate; try tauto; intros; reflexivity.
Qed.

(** X4.  [hasDuplicateOperand] returns [true] exactly when some pointer
    occurs twice in the operand list; it reads the node only. *)
Theorem hasDuplicateOperand_decides (s : state) (nd : ptr) (n : PSNode) :
  nd <> nullptr -> mem s !! nd = Some n ->
  exists b, hasDuplicateOperand nd s = Ok (b, s) /\ (b = true <-> ~ NoDup (operands n)).
Proof.
  intros Hnd Hn. exists (hasDuplicateOperand_loop ∅ (operands n)). split.
  - unfold hasDuplicateOperand, getOperands.
    rewrite (bind_eq _ _ _ _ (field_ok operands nd n s Hnd Hn)). reflexivity.
  - apply hasDuplicateOperand_loop_spec.
Qed.

(** X5.  [reachableNodes] faults exactly when a path of successor edges
    from the start node reaches a pointer that is null or holds no node;
    whenever it returns, it returns the set of the nodes such paths
    reach, all of them live, and leaves the state as it was. *)
Theorem reachableNodes_exact (s : state) (nd : ptr) :
  (reachableNodes nd s = Fault
   <-> exists x, path (mem s) nd x /\ allocated (mem s) x = false)
  /\ forall R s', reachableNodes nd s = Ok (R, s') ->
       s' = s
       /\ (forall x, x ∈ R <-> path (mem s) nd x)
       /\ (forall x, x ∈ R -> allocated (mem s) x = true).
Proof.
  split; [apply reachableNodes_fault_iff|].
  intros R s' Hrun. split; [|now apply (reachableNodes_ok_inv s nd R s')].
  destruct (reachableNodes_while_terminates s (S (size (mem s))) {[nd]} [nd])
    as [_ Hok].
  { intros y [<-|[]]. now apply elem_of_singleton. }
  { apply unexpanded_start. }
  now apply (Hok R s').
Qed.

(** X6.  Reachability composes: from a node of the set computed for
    [nd], [reachableNodes] returns, and returns a subset of that set. *)
Theorem reachableNodes_transitive (s s1 : state) (nd x : ptr) (R : gset N) :
  reachableNodes nd s = Ok (R, s1) -> x ∈ R ->
  exists R', reachableNodes x s = Ok (R', s) /\ R' ⊆ R.
Proof.
  intros Hrun Hx. destruct (reachableNodes_ok_inv s nd R s1 Hrun) as [HR Hal].
  destruct (reachableNodes_while_terminates s (S (size (mem s))) {[x]} [x])
    as [Hno Hok].
  { intros y [<-|[]]. now apply elem_of_singleton. }
  { apply unexpanded_start. }
  fold (reachableNodes x s) in Hno, Hok.
  destruct (reachableNodes x s) as [[R' s']| |] eqn:Hrun'; [| |congruence].
  - destruct (Hok R' s' eq_refl) as [-> _]. exists R'. split; [reflexivity|].
    destruct (reachableNodes_ok_inv s x R' s Hrun') as [HR' _].
    intros y Hy. apply HR. eapply path_trans; [apply HR, Hx|apply HR', Hy].
  - apply reachableNodes_fault_iff in Hrun' as (y & Hp & Hy).
    rewrite (Hal y) in Hy; [discriminate|].
    apply HR. eapply path_trans; [apply HR, Hx|exact Hp].
Qed.

(** X7.  The order of the node collection does not matter: on a
    reordered collection [validate] returns the same result and appends
    the same entries, reordered. *)
Theorem validate_order_irrelevant (s : state) (l : list ptr) :
  mem_safe s = true -> Permutation (nodes (PS s)) l ->
  exists V V',
    validate s = Ok (flagged V, logged s V)
    /\ validate (with_nodes l s) = Ok (flagged V', logged (with_nodes l s) V')
    /\ Permutation V V' /\ flagged V = flagged V'.
Proof.
  intros Hs Hp. exists (validate_diags s), (validate_diags (with_nodes l s)).
  pose proof (validate_diags_perm s l Hs Hp) as HV.
  split; [apply emits_here, emits_validate, Hs|].
  split; [|split; [exact HV|now apply flagged_perm]].
  apply emits_here, emits_validate, mem_safe_with_nodes; [assumption|].
  intros x Hx. eapply Permutation_in; [apply Permutation_sym|]; eassumption.
Qed.

(** X8.  The entries [validate] appends come grouped by check: first the
    invalid-node entries, then the invalid-operands entries, then the
    invalid-edges entries, then the unreachable-node entries. *)
Theorem entries_grouped (s : state) :
  mem_safe s = true ->
  exists N' O E U,
    checkOperands s = Ok (flagged (N' ++ O), logged s (N' ++ O))
    /\ validate s = Ok (flagged (N' ++ O ++ E ++ U), logged s (N' ++ O ++ E ++ U))
    /\ (forall d, In d N' -> exists nd, d = InvalNode nd msg_multiple)
    /\ (forall d, In d O -> exists nd msg, d = InvalOperands nd msg)
    /\ (forall d, In d E -> exists nd msg, d = InvalEdges nd msg)
    /\ (forall d, In d U -> exists nd, d = UnreachableNode nd).
Proof.
  intros Hs.
  exists (known_diags ∅ (nodes (PS s))),
         (flat_map (node_diags s (known_set ∅ (nodes (PS s)))) (nodes (PS s))),
         (flat_map (edge_diags s) (nodes (PS s))),
         (flat_map (unreachable_diags s (reachable_from_root s)) (nodes (PS s))).
  split; [apply (emits_here s _ _ _ (emits_checkOperands s Hs))|].
  split.
  { rewrite (app_assoc (known_diags _ _)).
    apply (emits_here s _ _ _ (emits_validate s Hs)). }
  split; [|split; [|split]].
  - intros d (nd & -> & _)%known_diags_shape. eauto.
  - intros d (nd & _ & Hd)%in_flat_map.
    apply node_diags_In in Hd as (_ & n & _ & [Hd|Hd]).
    + apply operand_diags_In in Hd as [-> _]. eauto.
    + apply arity_diags_In in Hd as (msg & -> & _). eauto.
  - intros d (nd & _ & Hd)%in_flat_map.
    apply edge_diags_In in Hd as (_ & n & _ & [Hd|Hd]).
    + apply predecessor_diags_In in Hd as [-> _]. eauto.
    + apply successor_diags_In in Hd as [-> _]. eauto.
  - intros d (nd & _ & Hd)%in_flat_map.
    apply unreachable_diags_In in Hd as [-> _]. eauto.
Qed.

(** X9.  On an empty node collection [validate] reports nothing, yet it
    still walks the graph from the root: it returns [false] and leaves
    [errors] alone, or faults when that walk meets a pointer that is null
    or holds no node, as it does when there is no root. *)
Theorem validate_empty_collection (s : state) :
  nodes (PS s) = [] ->
  (validate s = Fault
   <-> exists x, path (mem s) (root (PS s)) x /\ allocated (mem s) x = false)
  /\ (forall b s', validate s = Ok (b, s') -> b = false /\ s' = s).
Proof.
  intros Hn. rewrite (validate_empty_eq s Hn).
  destruct (reachableNodes_while_terminates s (S (size (mem s)))
              {[root (PS s)]} [root (PS s)]) as [Hno Hok].
  { intros y [<-|[]]. now apply elem_of_singleton. }
  { apply unexpanded_start. }
  fold (reachableNodes (root (PS s)) s) in Hno, Hok.
  rewrite <- (reachableNodes_fault_iff s (root (PS s))).
  destruct (reachableNodes (root (PS s)) s) as [[R s1]| |]; [| |congruence].
  - destruct (Hok R s1 eq_refl) as [-> _].
    split; [split; discriminate|]. now intros b s' [= <- <-].
  - split; [tauto|discriminate].
Qed.

(** X10.  The validator is exact: [validate] returns [false] on the
    graphs that satisfy the five invariants of section 3 and on no
    other. *)
Theorem validate_false_iff_valid (s : state) :
  mem_safe s = true ->
  ((exists s', validate s = Ok (false, s')) <-> valid_graph s).
Proof.
  intros Hs. rewrite (emits_here s _ _ _ (emits_validate s Hs)). split.
  - intros (s' & [= Hf _]). apply validate_diags_nil_valid; [assumption|].
    now destruct (validate_diags s).
  - intros Hv. rewrite (validate_diags_nil s Hs Hv). eauto.
Qed.



(** X14.  A registered node with an operand that is no sentinel and
    holds no node, a null or a dangling pointer, stops the validator:
    [checkOperands] is undefined on the graph, whether the operand is
    registered or not, and [validate] with it. *)
Theorem dead_operand_undefined (s : state) (nd : ptr) (n : PSNode) (op : ptr) :
  in_node_set s nd -> mem s !! nd = Some n -> In op (operands n) ->
  ~ is_sentinel op -> allocated (mem s) op = false ->
  checkOperands s = Fault /\ validate s = Fault.
Proof.
  intros Hnd Hn Hop Hsen Hal.
  pose proof (checkOperands_dead_operand s nd n op Hnd Hn Hop Hsen Hal) as HA.
  split; [exact HA|]. unfold validate, bind. now rewrite HA.
Qed.

End Further.

(** ** Their witnesses *)

Lemma ex_broken_printable_22 : printable ex_broken 22.
Proof.
  split; [discriminate|]. exists (mkPSNode 3 PHI [21; 21] [21] [21]).
  split; [reflexivity|]. intros op [<-|[<-|[]]]; reflexivity.
Qed.

Lemma dumpNode_text_witness :
  printable ex_broken 22
  /\ mem ex_broken !! 22 = Some (mkPSNode 3 PHI [21; 21] [21] [21])
  /\ @dumpNode ex_externals 22 ex_broken
     = Ok (tt, set_errors ex_broken
                 ("PHI with ID 3" +:+ nl +:+ "  - operands: [2 STORE, 2 STORE]" +:+ nl)).
Proof.
  split; [exact ex_broken_printable_22|]. split; [reflexivity|].
  exact (@dumpNode_text ex_externals ex_broken 22 _ ex_broken_printable_22 eq_refl).
Defined.

Lemma report_entry_text_witness :
  printable ex_broken 22
  /\ mem ex_broken !! 22 = Some (mkPSNode 3 PHI [21; 21] [21] [21])
  /\ @reportInvalNode ex_externals 22 msg_multiple ex_broken
     = Ok (true, set_errors ex_broken
                   ("Invalid node:" +:+ nl +:+ "PHI with ID 3" +:+ nl
                    +:+ "  - operands: [2 STORE, 2 STORE]" +:+ nl
                    +:+ "(Node multiple times in the graph)" +:+ nl)).
Proof.
  split; [exact ex_broken_printable_22|]. split; [reflexivity|].
  exact (@report_entry_text ex_externals ex_broken (InvalNode 22 msg_multiple) _
           ex_broken_printable_22 eq_refl).
Defined.

Lemma dumpNode_faults_witness :
  ~ printable ex_broken 99 /\ @dumpNode ex_externals 99 ex_broken = Fault.
Proof.
  assert (Hnp : ~ printable ex_broken 99).
  { intros (_ & n & Hn & _). vm_compute in Hn. discriminate. }
  split; [exact Hnp|].
  exact (proj2 (proj1 (@dumpNode_faults ex_externals ex_broken 99)) Hnp).
Defined.

Lemma hasDuplicateOperand_decides_witness :
  (22 : N) <> nullptr
  /\ mem ex_broken !! 22 = Some (mkPSNode 3 PHI [21; 21] [21] [21])
  /\ hasDuplicateOperand 22 ex_broken = Ok (true, ex_broken).
Proof.
  split; [discriminate|]. split; [reflexivity|].
  destruct (hasDuplicateOperand_decides ex_broken 22 (mkPSNode 3 PHI [21; 21] [21] [21]))
    as (b & Hrun & Hb); [discriminate|reflexivity|].
  assert (b = true) as <-; [|exact Hrun].
  apply Hb. intros Hnd. apply NoDup_cons_1_1 in Hnd. apply Hnd. now left.
Defined.

Lemma reachableNodes_exact_witness :
  reachableNodes nullptr ex_valid = Fault
  /\ exists R, reachableNodes 10 ex_valid = Ok (R, ex_valid)
               /\ forall x, x ∈ R -> allocated (mem ex_valid) x = true.
Proof.
  destruct (reachableNodes_exact ex_valid nullptr) as [Hf _].
  split.
  - apply Hf. exists nullptr. split; [apply path_here|reflexivity].
  - destruct (reachableNodes_ok ex_valid 10 eq_refl eq_refl) as (R & Hrun & _).
    exists R. split; [exact Hrun|].
    apply (proj2 (reachableNodes_exact ex_valid 10) R ex_valid Hrun).
Defined.

Lemma reachableNodes_transitive_witness :
  exists R, reachableNodes 10 ex_valid = Ok (R, ex_valid) /\ 11 ∈ R
    /\ exists R', reachableNodes 11 ex_valid = Ok (R', ex_valid) /\ R' ⊆ R.
Proof.
  destruct (reachableNodes_ok ex_valid 10 eq_refl eq_refl) as (R & Hrun & HR).
  assert (H11 : 11 ∈ R).
  { apply HR. apply (path_step _ _ 10 11 (mkPSNode 1 NOOP [] [] [11]));
      [apply path_here|reflexivity|now left]. }
  exists R. split; [exact Hrun|]. split; [exact H11|].
  exact (reachableNodes_transitive ex_valid ex_valid 10 11 R Hrun H11).
Defined.

Lemma validate_order_irrelevant_witness :
  mem_safe ex_broken = true
  /\ Permutation (nodes (PS ex_broken)) [0; 22; 23; 22; 21; 20; 0]
  /\ exists V V',
       @validate ex_externals ex_broken = Ok (flagged V, @logged ex_externals ex_broken V)
       /\ @validate ex_externals (with_nodes [0; 22; 23; 22; 21; 20; 0] ex_broken)
          = Ok (flagged V',
                @logged ex_externals (with_nodes [0; 22; 23; 22; 21; 20; 0] ex_broken) V')
       /\ Permutation V V' /\ flagged V = flagged V'.
Proof.
  split; [reflexivity|].
  split; [exact (Permutation_rev (nodes (PS ex_broken)))|].
  exact (@validate_order_irrelevant ex_externals ex_broken _ eq_refl
           (Permutation_rev (nodes (PS ex_broken)))).
Defined.

Lemma entries_grouped_witness :
  mem_safe ex_broken = true
  /\ exists N' O E U,
       @checkOperands ex_externals ex_broken
       = Ok (flagged (N' ++ O), @logged ex_externals ex_broken (N' ++ O))
       /\ @validate ex_externals ex_broken
          = Ok (flagged (N' ++ O ++ E ++ U),
                @logged ex_externals ex_broken (N' ++ O ++ E ++ U))
       /\ (forall d, In d N' -> exists nd, d = InvalNode nd msg_multiple)
       /\ (forall d, In d O -> exists nd msg, d = InvalOperands nd msg)
       /\ (forall d, In d E -> exists nd msg, d = InvalEdges nd msg)
       /\ (forall d, In d U -> exists nd, d = UnreachableNode nd).
Proof.
  split; [reflexivity|].
  exact (@entries_grouped ex_externals ex_broken eq_refl).
Defined.

Lemma validate_empty_collection_witness :
  nodes (PS (with_nodes [] ex_valid)) = []
  /\ @validate ex_externals (with_nodes [] ex_valid)
     = Ok (false, with_nodes [] ex_valid)
  /\ (forall b s', @validate ex_externals (with_nodes [] ex_valid) = Ok (b, s')
        -> b = false /\ s' = with_nodes [] ex_valid).
Proof.
  split; [reflexivity|]. split; [vm_compute; reflexivity|].
  exact (proj2 (@validate_empty_collection ex_externals (with_nodes [] ex_valid) eq_refl)).
Defined.

Lemma validate_false_iff_valid_witness :
  mem_safe ex_valid = true
  /\ ((exists s', @validate ex_externals ex_valid = Ok (false, s'))
      <-> @valid_graph ex_externals ex_valid).
Proof.
  split; [reflexivity|].
  exact (@validate_false_iff_valid ex_externals ex_valid eq_refl).
Defined.



Lemma dead_operand_undefined_witness :
  in_node_set (ex_operand 99) 31
  /\ ~ @is_sentinel ex_externals 99
  /\ allocated (mem (ex_operand 99)) 99 = false
  /\ @checkOperands ex_externals (ex_operand 99) = Fault
  /\ @validate ex_externals (ex_operand 99) = Fault.
Proof.
  assert (Hnd : in_node_set (ex_operand 99) 31) by (split; [discriminate|simpl; tauto]).
  assert (Hsen : ~ @is_sentinel ex_externals 99) by (intros [Hs|[Hs|Hs]]; discriminate).
  split; [exact Hnd|]. split; [exact Hsen|]. split; [reflexivity|].
  apply (@dead_operand_undefined ex_externals (ex_operand 99) 31
           (mkPSNode 2 LOAD [99] [30] []) 99); try assumption; try reflexivity.
  now left.
Defined.
